(** * goemail: the retry-and-delivery core, embedded and verified

    The package [goemail] builds a mail message and delivers it over SMTP
    inside a retry loop with exponential backoff and jitter.  This file
    embeds the package's Go code as Rocq functions and proves (or refutes)
    the properties its specification states.

    Sources embedded:
    - goemail.go (the documented revision, with [attachments] and
      [SetAttachements]): the data model, [New], the two [validate]
      methods, the setters, [SetContent], [sendBy], [Send];
    - gomail.go (the documented revision): [gomailSender.Send],
      [sendEmail], [getMessage];
    - gomail.go, earlier revision: its [getMessage] (module [Gomail0]);
    - helper.go, in its two revisions: the documented one whose loop is
      [for i := 1; i <= retry; i++], and the earlier one whose loop is
      [for i := 0; i < retry; i++] (module [Helper0]).

    Conventions.  A Go [int], [int64] and [time.Duration] is a [Z] with the
    64-bit wrap-around written out ([wrap64]).  A Go [string] is a
    [string] of bytes, so [String.length] is Go's [len].  A Go [error] is
    [option string]: [None] is [nil], [Some m] an error whose message is
    [m].  A panic is an outcome of its own. *)

From Stdlib Require Import ZArith List String Ascii Bool Lia.
Import ListNotations.
Local Open Scope string_scope.
Local Open Scope list_scope.
Local Open Scope Z_scope.

Set Implicit Arguments.

(** ** Machine integers *)

Module Int64.

Definition min : Z := - 2 ^ 63.
Definition max : Z := 2 ^ 63 - 1.

(** Two's complement wrap-around of a 64-bit signed result. *)
Definition wrap64 (z : Z) : Z := (z + 2 ^ 63) mod 2 ^ 64 - 2 ^ 63.

Definition add (a b : Z) : Z := wrap64 (a + b).
Definition mul (a b : Z) : Z := wrap64 (a * b).

Definition in_range (z : Z) : Prop := min <= z <= max.

End Int64.

(** ** Errors and outcomes *)

Definition error : Type := option string.
Definition nil_error : error := None.

(** [errors.New] and [fmt.Errorf] with a constant format. *)
Definition errors_New (m : string) : error := Some m.

Definition ErrContentMissing : string := "content missing".
Definition ErrTimeout : string := "send email timeout".
Definition ErrExhausted : string := "retries are exhausted".
Definition ErrNoContent : string := "not content provided".

(** ** goemail.go: the data model *)

Definition ContentHTML : string := "html".
Definition ContentText : string := "text".

(** [gomail.Dialer], as [gomail.NewDialer] fills it. *)
Record Dialer : Type := mkDialer {
  Host : string;
  Port : Z;
  Username : string;
  Password : string;
  SSL : bool
}.

Definition NewDialer (host : string) (port : Z) (username password : string)
  : Dialer :=
  {| Host := host; Port := port; Username := username; Password := password;
     SSL := port =? 465 |}.

(** The [email] struct.  The type is unexported and [New] is its only
    exported constructor, so the [dialer] pointer of an email a caller
    holds is never nil: the field is a [Dialer].  The field [sender] is
    [sender_] here, the name [sender] being the interface's. *)
Record email : Type := mkEmail {
  dialer : Dialer;
  content : string;
  contentType : string;
  sender_ : string;
  senderName : string;
  returnEmail : string;
  subject : string;
  tags : string;
  to : list string;
  cc : list string;
  bcc : list string;
  imagesToEmbed : list string;
  attachments : list string
}.

Record ConnectionDetails : Type := mkConnectionDetails {
  SmtpHost : string;
  SmtpPort : Z;
  SmtpUser : string;
  SmtpPassword : string
}.

(** [&email{dialer: dialer}]: every other field has its zero value. *)
Definition email_zero (d : Dialer) : email :=
  {| dialer := d; content := ""; contentType := ""; sender_ := "";
     senderName := ""; returnEmail := ""; subject := ""; tags := "";
     to := []; cc := []; bcc := []; imagesToEmbed := []; attachments := [] |}.

(** [s == ""] on Go strings. *)
Definition is_empty (s : string) : bool := String.eqb s "".

(** [ConnectionDetails.validate].  The four checks only grow the local
    [errStr]; the function ends in [return nil] whatever [errStr] holds.
    The pair returned here is (accumulated [errStr], returned error), so
    that the checks stay visible in the model. *)
Definition ConnectionDetails_validate_trace (c : ConnectionDetails)
  : string * error :=
  let errStr := "" in
  let errStr :=
    if is_empty (SmtpHost c) then (errStr ++ "host cannot be empty")%string else errStr in
  let errStr :=
    if SmtpPort c =? 0 then (errStr ++ "port cannot be 0")%string else errStr in
  let errStr :=
    if is_empty (SmtpPassword c)
    then (errStr ++ "SmtpPassword cannot be empty")%string else errStr in
  let errStr :=
    if is_empty (SmtpUser c)
    then (errStr ++ "SmtpUser cannot be empty")%string else errStr in
  (errStr, nil_error).

Definition ConnectionDetails_validate (c : ConnectionDetails) : error :=
  snd (ConnectionDetails_validate_trace c).

(** [New].  The package-level variable [dialer] is threaded as the first
    component of the result; the second is Go's [( *email, error)], with
    [None] for the nil pointer. *)
Definition New (global_dialer : option Dialer) (c : ConnectionDetails)
  : option Dialer * (option email * error) :=
  match ConnectionDetails_validate c with
  | Some m => (global_dialer, (None, Some m))
  | None =>
      let d := NewDialer (SmtpHost c) (SmtpPort c) (SmtpUser c) (SmtpPassword c) in
      (Some d, (Some (email_zero d), nil_error))
  end.

(** [len(s) > 500], guarded by [s != ""] as in the source. *)
Definition too_long (s : string) : bool :=
  negb (is_empty s) && (500 <? Z.of_nat (String.length s)).

(** [email.validate]. *)
Definition email_validate (e : email) : error :=
  if is_empty (content e) then errors_New ErrContentMissing
  else if too_long (subject e) then errors_New "subject too long"
  else if too_long (tags e) then errors_New "tags too long"
  else if too_long (sender_ e) then errors_New "sender email too long"
  else if too_long (senderName e) then errors_New "sender name email too long"
  else if too_long (returnEmail e) then errors_New "returnEmail too long"
  else nil_error.

(** *** Setters *)

Definition set_content (e : email) (v : string) : email :=
  {| dialer := dialer e; content := v; contentType := contentType e;
     sender_ := sender_ e; senderName := senderName e;
     returnEmail := returnEmail e; subject := subject e; tags := tags e;
     to := to e; cc := cc e; bcc := bcc e;
     imagesToEmbed := imagesToEmbed e; attachments := attachments e |}.

Definition set_contentType (e : email) (v : string) : email :=
  {| dialer := dialer e; content := content e; contentType := v;
     sender_ := sender_ e; senderName := senderName e;
     returnEmail := returnEmail e; subject := subject e; tags := tags e;
     to := to e; cc := cc e; bcc := bcc e;
     imagesToEmbed := imagesToEmbed e; attachments := attachments e |}.

Definition SetTo (e : email) (v : list string) : email :=
  {| dialer := dialer e; content := content e; contentType := contentType e;
     sender_ := sender_ e; senderName := senderName e;
     returnEmail := returnEmail e; subject := subject e; tags := tags e;
     to := v; cc := cc e; bcc := bcc e;
     imagesToEmbed := imagesToEmbed e; attachments := attachments e |}.

Definition SetCC (e : email) (v : list string) : email :=
  {| dialer := dialer e; content := content e; contentType := contentType e;
     sender_ := sender_ e; senderName := senderName e;
     returnEmail := returnEmail e; subject := subject e; tags := tags e;
     to := to e; cc := v; bcc := bcc e;
     imagesToEmbed := imagesToEmbed e; attachments := attachments e |}.

Definition SetBCC (e : email) (v : list string) : email :=
  {| dialer := dialer e; content := content e; contentType := contentType e;
     sender_ := sender_ e; senderName := senderName e;
     returnEmail := returnEmail e; subject := subject e; tags := tags e;
     to := to e; cc := cc e; bcc := v;
     imagesToEmbed := imagesToEmbed e; attachments := attachments e |}.

Definition SetTags (e : email) (v : string) : email :=
  {| dialer := dialer e; content := content e; contentType := contentType e;
     sender_ := sender_ e; senderName := senderName e;
     returnEmail := returnEmail e; subject := subject e; tags := v;
     to := to e; cc := cc e; bcc := bcc e;
     imagesToEmbed := imagesToEmbed e; attachments := attachments e |}.

Definition SetSubject (e : email) (v : string) : email :=
  {| dialer := dialer e; content := content e; contentType := contentType e;
     sender_ := sender_ e; senderName := senderName e;
     returnEmail := returnEmail e; subject := v; tags := tags e;
     to := to e; cc := cc e; bcc := bcc e;
     imagesToEmbed := imagesToEmbed e; attachments := attachments e |}.

Definition SetSender (e : email) (v : string) : email :=
  {| dialer := dialer e; content := content e; contentType := contentType e;
     sender_ := v; senderName := senderName e;
     returnEmail := returnEmail e; subject := subject e; tags := tags e;
     to := to e; cc := cc e; bcc := bcc e;
     imagesToEmbed := imagesToEmbed e; attachments := attachments e |}.

Definition SetSenderName (e : email) (v : string) : email :=
  {| dialer := dialer e; content := content e; contentType := contentType e;
     sender_ := sender_ e; senderName := v;
     returnEmail := returnEmail e; subject := subject e; tags := tags e;
     to := to e; cc := cc e; bcc := bcc e;
     imagesToEmbed := imagesToEmbed e; attachments := attachments e |}.

Definition SetReturnEmail (e : email) (v : string) : email :=
  {| dialer := dialer e; content := content e; contentType := contentType e;
     sender_ := sender_ e; senderName := senderName e;
     returnEmail := v; subject := subject e; tags := tags e;
     to := to e; cc := cc e; bcc := bcc e;
     imagesToEmbed := imagesToEmbed e; attachments := attachments e |}.

Definition SetImagesToEmbed (e : email) (v : list string) : email :=
  {| dialer := dialer e; content := content e; contentType := contentType e;
     sender_ := sender_ e; senderName := senderName e;
     returnEmail := returnEmail e; subject := subject e; tags := tags e;
     to := to e; cc := cc e; bcc := bcc e;
     imagesToEmbed := v; attachments := attachments e |}.

Definition SetAttachements (e : email) (v : list string) : email :=
  {| dialer := dialer e; content := content e; contentType := contentType e;
     sender_ := sender_ e; senderName := senderName e;
     returnEmail := returnEmail e; subject := subject e; tags := tags e;
     to := to e; cc := cc e; bcc := bcc e;
     imagesToEmbed := imagesToEmbed e; attachments := v |}.

(** *** Content and the template renderer *)

Section WithTemplates.

(** The [interface{}] handed to the template. *)
Variable Data : Type.

(** [processTemplate] parses a file and executes the template: both are
    the [html/template] collaborator, taken as a function of the path and
    the data that gives Go's [(string, error)]. *)
Variable processTemplate : string -> Data -> string * error.

(** The [Content] struct; its fields [Type], [Content] and [Data] carry a
    trailing underscore here. *)
Record Content : Type := mkContent {
  Type_ : string;
  Content_ : string;
  TemplatePath : string;
  Data_ : Data
}.

(** [email.SetContent]: the entity after the call, and the error. *)
Definition SetContent (e : email) (c : Content) : email * error :=
  let e := set_contentType e (Type_ c) in
  if String.eqb (Type_ c) ContentHTML then
    if negb (is_empty (Content_ c)) then
      (set_content e (Content_ c), nil_error)
    else if negb (is_empty (TemplatePath c)) then
      match processTemplate (TemplatePath c) (Data_ c) with
      | (_, Some m) => (e, Some m)
      | (s, None) => (set_content e s, nil_error)
      end
    else (e, errors_New ErrNoContent)
  else if String.eqb (Type_ c) ContentText then
    (set_content e (Content_ c), nil_error)
  else (e, nil_error).

End WithTemplates.

(** ** gomail.go: the message descriptor *)

(** A header value as the message holds it.  [SetHeader] passes every
    value through the header encoder of the message before it stores it
    (the encoder leaves printable ASCII as it is and turns anything else
    into RFC 2047 encoded words).  The encoder is the mail library's, so a
    stored value is kept as [Encoded v], the output of the encoder on
    [v], and read with [stored] under an encoder. *)
Inductive header_value : Type :=
| Encoded (v : string).

Definition stored (hEncoder : string -> string) (h : header_value) : string :=
  match h with
  | Encoded v => hEncoder v
  end.

(** [gomail.Message], reduced to what [getMessage] writes: the body parts,
    the header, the embedded files and the attached files.  The header is
    a Go map from field names to values: here a list with at most one
    entry per field, whose order carries no meaning, written with
    [set_field] and read with [get_field]. *)
Record Message : Type := mkMessage {
  parts : list (string * string);
  header : list (string * list header_value);
  embedded : list string;
  attached : list string
}.

(** [h[field] = values] on the map. *)
Fixpoint set_field (field : string) (values : list header_value)
  (h : list (string * list header_value)) : list (string * list header_value) :=
  match h with
  | [] => [(field, values)]
  | (f, vs) :: h' =>
      if String.eqb f field then (field, values) :: h'
      else (f, vs) :: set_field field values h'
  end.

(** [h[field]] on the map; [None] when the field is not set. *)
Fixpoint get_field (field : string) (h : list (string * list header_value))
  : option (list header_value) :=
  match h with
  | [] => None
  | (f, vs) :: h' => if String.eqb f field then Some vs else get_field field h'
  end.

Definition NewMessage : Message :=
  {| parts := []; header := []; embedded := []; attached := [] |}.

(** [SetBody] replaces the parts by the one it is given. *)
Definition SetBody (m : Message) (contentType body : string) : Message :=
  {| parts := [(contentType, body)]; header := header m;
     embedded := embedded m; attached := attached m |}.

(** [SetHeader] encodes the values and assigns them to the field in the
    map, in place of what the field held. *)
Definition SetHeader (m : Message) (field : string) (values : list string)
  : Message :=
  {| parts := parts m;
     header := set_field field (map Encoded values) (header m);
     embedded := embedded m; attached := attached m |}.

(** [GetHeader]: the values of a field. *)
Definition GetHeader (m : Message) (field : string)
  : option (list header_value) :=
  get_field field (header m).

Definition Embed (m : Message) (filename : string) : Message :=
  {| parts := parts m; header := header m;
     embedded := embedded m ++ [filename]; attached := attached m |}.

Definition Attach (m : Message) (filename : string) : Message :=
  {| parts := parts m; header := header m;
     embedded := embedded m; attached := attached m ++ [filename] |}.

Section WithFormat.

(** [Message.FormatAddress], the transport library's address formatter. *)
Variable FormatAddress : string -> string -> string.

(** The three recipient blocks of [getMessage] have this one shape. *)
Definition set_recipients (gm : Message) (field : string) (l : list string)
  : Message :=
  if (0 <? Z.of_nat (List.length l)) then
    SetHeader gm field (map (fun v => FormatAddress v "") l)
  else gm.

(** [getMessage] (the documented revision: html and text bodies). *)
Definition getMessage (e : email) : Message :=
  let gm := NewMessage in
  let gm :=
    if String.eqb (contentType e) ContentHTML
    then SetBody gm "text/html" (content e)
    else if String.eqb (contentType e) ContentText
    then SetBody gm "text/plain" (content e)
    else gm in
  let gm := set_recipients gm "To" (to e) in
  let gm := set_recipients gm "Cc" (cc e) in
  let gm := set_recipients gm "Bcc" (bcc e) in
  let gm := SetHeader gm "Subject" [subject e] in
  let gm := SetHeader gm "From" [FormatAddress (sender_ e) (senderName e)] in
  let gm := SetHeader gm "X-SES-MESSAGE-TAGS" [tags e] in
  let gm := SetHeader gm "Return-Path" [returnEmail e] in
  let gm :=
    if (0 <? Z.of_nat (List.length (imagesToEmbed e)))
    then fold_left Embed (imagesToEmbed e) gm
    else gm in
  gm.

End WithFormat.

(** The earlier revision of gomail.go: its [getMessage] sets the body for
    html only; the rest is the same. *)
Module Gomail0.

Section WithFormat.

Variable FormatAddress : string -> string -> string.

Definition getMessage (e : email) : Message :=
  let gm := NewMessage in
  let gm :=
    if String.eqb (contentType e) ContentHTML
    then SetBody gm "text/html" (content e)
    else gm in
  let gm := set_recipients FormatAddress gm "To" (to e) in
  let gm := set_recipients FormatAddress gm "Cc" (cc e) in
  let gm := set_recipients FormatAddress gm "Bcc" (bcc e) in
  let gm := SetHeader gm "Subject" [subject e] in
  let gm := SetHeader gm "From" [FormatAddress (sender_ e) (senderName e)] in
  let gm := SetHeader gm "X-SES-MESSAGE-TAGS" [tags e] in
  let gm := SetHeader gm "Return-Path" [returnEmail e] in
  let gm :=
    if (0 <? Z.of_nat (List.length (imagesToEmbed e)))
    then fold_left Embed (imagesToEmbed e) gm
    else gm in
  gm.

End WithFormat.

End Gomail0.

(** ** The world around the retry loop

    The loop talks to four things it does not own: the attempt function,
    the caller's context, the process-wide random source and the Go
    scheduler that runs [select].  Each is an explicit input. *)

(** One invocation of the attempt function: how long it ran (in
    nanoseconds) and the error it returned. *)
Record attempt : Type := mkAttempt {
  took : N;
  err : error
}.

(** [fn func(e *email) error].  The function is effectful (it dials a
    server), so what it does depends on which invocation this is: the
    first argument counts the invocations made before, from 0. *)
Definition AttemptFn : Type := nat -> email -> attempt.

(** [context.Context], as far as the loop reads it: the instant from which
    [ctx.Done()] is ready.  [None] is a context that is never cancelled
    ([context.Background()]). *)
Record Context : Type := mkContext {
  done_at : option Z
}.

Definition Background : Context := {| done_at := None |}.

(** What the Go runtime decides for the loop. *)
Record Runtime : Type := mkRuntime {
  (** the raw value behind the [k]-th draw of the global source *)
  rand_src : nat -> Z;
  (** [select] with both cases ready at once picks one at random:
      [true] picks the timer *)
  select_pick : nat -> bool;
  (** the int64 a float64 too large for int64 converts to (the language
      leaves it to the implementation) *)
  float_overflow : Z
}.

Definition Second : Z := 1000000000.

(** [rand.Int63n(n)]: panics unless [n > 0], otherwise a value of
    [[0, n)]. *)
Definition Int63n (raw n : Z) : option Z :=
  if n <=? 0 then None else Some (raw mod n).

(** [time.Duration(math.Pow(2, float64(i)))].  [math.Pow(2, x)] is exact
    on integers; below 1 the conversion truncates to 0, and from [2^63]
    on it is out of int64. *)
Definition pow2_duration (rt : Runtime) (i : Z) : Z :=
  if i <? 0 then 0
  else if i <=? 62 then 2 ^ i
  else float_overflow rt.

Inductive wake : Type := TimerFired | CtxDone.

(** The [select] over [time.After(sleep)] and [ctx.Done()], entered at
    instant [now]: which case runs, and when.  The timer is ready at
    [now + sleep] (at once when [sleep <= 0]); the context is ready from
    [done_at]; the case that is ready first runs. *)
Definition select_wait (rt : Runtime) (ctx : Context) (k : nat)
  (now sleep : Z) : wake * Z :=
  let timer := now + Z.max 0 sleep in
  match done_at ctx with
  | None => (TimerFired, timer)
  | Some tc =>
      let cancelled := Z.max now tc in
      if cancelled <? timer then (CtxDone, cancelled)
      else if timer <? cancelled then (TimerFired, timer)
      else ((if select_pick rt k then TimerFired else CtxDone), timer)
  end.

(** ** What a run of the loop leaves behind *)

(** How a run ends: a [return], or a panic.  [OutOfFuel] belongs to the
    model alone: the loops below are written with fuel, and no run of
    [exponentialBackOffRetry] uses it up (lemmas
    [exponentialBackOffRetry_total] and [Helper0_total]). *)
Inductive outcome : Type :=
| Returned (r : error)
| Panicked (msg : string)
| OutOfFuel.

Inductive event : Type :=
| Called (k : nat) (r : error)    (* [fn(e)] returned [r], invocation [k] *)
| Backoff (i : Z) (d : Z)         (* [backoff] computed at loop index [i] *)
| Jitter (i : Z) (j : Z)          (* [jitter] drawn at loop index [i] *)
| Retry (i : Z) (slept : Z).      (* the timer case ran after [slept] *)

Record result : Type := mkResult {
  out : outcome;
  trace : list event;
  finish : Z
}.

Definition stop (o : outcome) (now : Z) : result :=
  {| out := o; trace := []; finish := now |}.

Definition log (evs : list event) (r : result) : result :=
  {| out := out r; trace := evs ++ trace r; finish := finish r |}.

Definition is_call (ev : event) : bool :=
  match ev with Called _ _ => true | _ => false end.

Definition is_retry (ev : event) : bool :=
  match ev with Retry _ _ => true | _ => false end.

(** Invocations of the attempt function in a run. *)
Definition calls (r : result) : nat := List.length (filter is_call (trace r)).

Definition is_failure (ev : event) : bool :=
  match ev with Called _ (Some _) => true | _ => false end.

(** Invocations of the attempt function that returned an error. *)
Definition failures (r : result) : nat :=
  List.length (filter is_failure (trace r)).

(** Backoff waits that ran to their end. *)
Definition waits (r : result) : nat := List.length (filter is_retry (trace r)).

Fixpoint backoffs_of (tr : list event) : list Z :=
  match tr with
  | [] => []
  | Backoff _ d :: tr' => d :: backoffs_of tr'
  | _ :: tr' => backoffs_of tr'
  end.

Fixpoint jitters_of (tr : list event) : list (Z * Z) :=
  match tr with
  | [] => []
  | Jitter i j :: tr' => (i, j) :: jitters_of tr'
  | _ :: tr' => jitters_of tr'
  end.

(** The backoffs a run computed, in order. *)
Definition backoffs (r : result) : list Z := backoffs_of (trace r).

(** The (bound, draw) pairs of the jitter draws of a run, in order. *)
Definition jitters (r : result) : list (Z * Z) := jitters_of (trace r).

(** ** helper.go: the body both revisions of the loop share *)

Inductive pass : Type :=
| Exit (r : result)                   (* a [return], or a panic *)
| Next (now : Z) (evs : list event).  (* fall through to the post statement *)

Section LoopBody.

Variable rt : Runtime.
Variable ctx : Context.
Variable e : email.
Variable fn : AttemptFn.

(** [delay := 2 * time.Second] *)
Definition delay : Z := Int64.mul 2 Second.

(** One pass through the body at loop index [i], entered at instant
    [now]; [k] passes were made before.  The [fmt.Println] lines only
    write to standard output; the [Retry] event stands for the one of the
    timer case. *)
Definition body (i : Z) (k : nat) (now : Z) : pass :=
  let a := fn k e in
  let now := now + Z.of_N (took a) in
  match err a with
  | None => Exit (log [Called k None] (stop (Returned nil_error) now))
  | Some m =>
      let backoff := Int64.mul delay (pow2_duration rt i) in
      match Int63n (rand_src rt k) i with
      | None =>
          Exit (log [Called k (Some m); Backoff i backoff]
                    (stop (Panicked "invalid argument to Int63n") now))
      | Some jitter =>
          let sleep := Int64.add backoff jitter in
          let evs := [Called k (Some m); Backoff i backoff; Jitter i jitter] in
          match select_wait rt ctx k now sleep with
          | (TimerFired, t) => Next t (evs ++ [Retry i (t - now)])
          | (CtxDone, t) =>
              Exit (log evs (stop (Returned (errors_New ErrTimeout)) t))
          end
      end
  end.

End LoopBody.

(** ** helper.go, documented revision: [for i := 1; i <= retry; i++] *)

Section Retry.

Variable rt : Runtime.
Variable ctx : Context.
Variable e : email.
Variable fn : AttemptFn.
Variable retry : Z.

Fixpoint loop (fuel : nat) (i : Z) (k : nat) (now : Z) : result :=
  match fuel with
  | O => stop OutOfFuel now
  | S fuel' =>
      if i <=? retry then
        match body rt ctx e fn i k now with
        | Exit r => r
        | Next now' evs => log evs (loop fuel' (Int64.add i 1) (S k) now')
        end
      else stop (Returned (errors_New ErrExhausted)) now
  end.

(** [exponentialBackOffRetry], called at instant [start].  The loop makes
    at most [retry] passes and one more test of its condition. *)
Definition exponentialBackOffRetry (start : Z) : result :=
  loop (S (Z.to_nat retry)) 1 0 start.

End Retry.

(** ** helper.go, earlier revision: [for i := 0; i < retry; i++] *)

Module Helper0.

Section Retry.

Variable rt : Runtime.
Variable ctx : Context.
Variable e : email.
Variable fn : AttemptFn.
Variable retry : Z.

Fixpoint loop (fuel : nat) (i : Z) (k : nat) (now : Z) : result :=
  match fuel with
  | O => stop OutOfFuel now
  | S fuel' =>
      if i <? retry then
        match body rt ctx e fn i k now with
        | Exit r => r
        | Next now' evs => log evs (loop fuel' (Int64.add i 1) (S k) now')
        end
      else stop (Returned (errors_New ErrExhausted)) now
  end.

Definition exponentialBackOffRetry (start : Z) : result :=
  loop (S (Z.to_nat retry)) 0 0 start.

End Retry.

End Helper0.

(** ** gomail.go: the sender *)

(** The mail-transport collaborator. *)
Record Transport : Type := mkTransport {
  FormatAddress : string -> string -> string;
  (** [Dialer.DialAndSend], at its [k]-th use *)
  DialAndSend : nat -> Dialer -> Message -> attempt
}.

Record gomailSender : Type := mkGomailSender {
  retry : Z
}.

(** The [sender] interface. *)
Class sender (S : Type) : Type := {
  Send : S -> Context -> email -> Z -> result
}.

Section Sending.

Variable rt : Runtime.
Variable tr : Transport.

Definition sendEmail : AttemptFn :=
  fun k e =>
    let gm := getMessage (FormatAddress tr) e in
    DialAndSend tr k (dialer e) gm.

(** [gomailSender.Send], called at instant [start]. *)
Definition gomailSender_Send (g : gomailSender) (ctx : Context) (e : email)
  (start : Z) : result :=
  match email_validate e with
  | Some m => stop (Returned (Some m)) start
  | None => exponentialBackOffRetry rt ctx e sendEmail (retry g) start
  end.

#[local] Instance gomailSender_sender : sender gomailSender :=
  {| Send := gomailSender_Send |}.

Definition sendBy {S : Type} `{sender S} (ctx : Context) (s : S) (e : email)
  (start : Z) : result :=
  Send s ctx e start.

(** [email.Send]. *)
Definition email_Send (e : email) (ctx : Context) (retry : Z) (start : Z)
  : result :=
  sendBy ctx {| retry := retry |} e start.

End Sending.

(** ** helper.go: [processTemplate] *)

(** The [html/template] collaborator: [template.ParseFiles] gives a
    template or an error; [Template.Execute] writes into the buffer it is
    given and returns an error, so its result here is the text written
    (possibly partial) and the error. *)
Record TemplateEngine (Data : Type) : Type := mkTemplateEngine {
  Template : Type;
  ParseFiles : string -> Template + string;
  Execute : Template -> Data -> string * error
}.

(** [processTemplate]: both failures return the empty string with the
    error; the [log.Println] lines only write to the log. *)
Definition processTemplate {Data : Type} (eng : TemplateEngine Data)
  (templatePath : string) (data : Data) : string * error :=
  match ParseFiles eng templatePath with
  | inr m => ("", Some m)
  | inl t =>
      match Execute eng t data with
      | (_, Some m) => ("", Some m)
      | (buf, None) => (buf, nil_error)
      end
  end.

(** ** goemail.go, earlier revision: [SetContent]

    The earlier revision renders the template whenever the type is html,
    and sets [contentType] in the html branch only.  (Its [email] struct
    has no [attachments] field; the field is left alone here.) *)
Module Goemail0.

Section WithTemplates.

Variable Data : Type.
Variable processTemplate : string -> Data -> string * error.

Definition SetContent (e : email) (c : Content Data) : email * error :=
  if String.eqb (Type_ c) ContentHTML then
    match processTemplate (TemplatePath c) (Data_ c) with
    | (_, Some m) => (e, Some m)
    | (s, None) => (set_contentType (set_content e s) ContentHTML, nil_error)
    end
  else if String.eqb (Type_ c) ContentText then
    (set_content e (Content_ c), nil_error)
  else (e, nil_error).

End WithTemplates.

End Goemail0.

(** ** example/main.go: the two example programs

    Each [main] builds one email and sends it.  What a program shows is
    what it hands to [log.Println]; the run of [Send], when there is one,
    is kept beside it.  Both programs drop the error [SetContent]
    returns. *)

Record program_run : Type := mkProgramRun {
  logged : list string;
  sent : option result
}.

Section Examples.

Variable rt : Runtime.
Variable tr : Transport.
(** The programs pass no template data: [Data] is [nil]. *)
Variable renderer : string -> unit -> string * error.


(** The second program, the one of the README: an html mail with a
    literal body, a context with a timeout of 50 seconds, ten retries.
    The timeout starts when the context is made, right before [Send]. *)
Definition example_html_main (start : Z) : program_run :=
  match snd (New None {| SmtpHost := "xxxxxx"; SmtpPort := 0;
                         SmtpUser := "xxxx"; SmtpPassword := "xxx" |}) with
  | (_, Some m) => {| logged := [m]; sent := None |}
  | (None, None) => {| logged := []; sent := None |}
  | (Some m, None) =>
      let m := SetTo m ["xxxxxx"] in
      let m := SetSubject m "Test" in
      let m := SetSenderName m "test" in
      let m := SetSender m "xxxxxx" in
      let m := SetReturnEmail m "xxxxxx" in
      let m := fst (SetContent renderer m
                      {| Type_ := ContentHTML;
                         Content_ := "<div><h2>Test</h2></div>";
                         TemplatePath := ""; Data_ := tt |}) in
      let ctx := {| done_at := Some (start + 50 * Second) |} in
      let r := email_Send rt tr m ctx 10 start in
      match out r with
      | Returned (Some msg) => {| logged := [msg]; sent := Some r |}
      | _ => {| logged := []; sent := Some r |}
      end
  end.

End Examples.

(** ** Notions the further properties are stated with *)

(** What the header holds for one recipient list: no field for an empty
    list, otherwise the encoded formatted addresses, in the order of the
    list. *)
Definition recipient_values (fmt : string -> string -> string)
  (l : list string) : option (list header_value) :=
  match l with
  | [] => None
  | _ :: _ => Some (map (fun v => Encoded (fmt v "")) l)
  end.

(** The field names [getMessage] sets. *)
Definition header_fields : list string :=
  ["To"; "Cc"; "Bcc"; "Subject"; "From"; "X-SES-MESSAGE-TAGS"; "Return-Path"].

(** The MIME type [getMessage] gives the body of a content type. *)
Definition mime_of (contentType : string) : option string :=
  if String.eqb contentType ContentHTML then Some "text/html"
  else if String.eqb contentType ContentText then Some "text/plain"
  else None.

(** The message of the first check of [email.validate], in its order,
    that a list of (field value, message) pairs fails. *)
Fixpoint first_too_long (fields : list (string * string)) : error :=
  match fields with
  | [] => nil_error
  | (v, m) :: rest =>
      if 500 <? Z.of_nat (String.length v) then Some m else first_too_long rest
  end.

(** The fields [email.validate] bounds, with the message of each. *)
Definition bounded_fields (e : email) : list (string * string) :=
  [(subject e, "subject too long"); (tags e, "tags too long");
   (sender_ e, "sender email too long");
   (senderName e, "sender name email too long");
   (returnEmail e, "returnEmail too long")].

(** Two emails that differ at most in [content] and [contentType]. *)
Definition same_but_content (e e' : email) : Prop :=
  dialer e' = dialer e /\ sender_ e' = sender_ e
  /\ senderName e' = senderName e /\ returnEmail e' = returnEmail e
  /\ subject e' = subject e /\ tags e' = tags e
  /\ to e' = to e /\ cc e' = cc e /\ bcc e' = bcc e
  /\ imagesToEmbed e' = imagesToEmbed e /\ attachments e' = attachments e.

(** [fn] fails on its first [k] invocations and succeeds on the next. *)
Definition first_success_at (fn : AttemptFn) (e : email) (k : nat) : Prop :=
  (forall j, (j < k)%nat -> err (fn j e) <> None) /\ err (fn k e) = None.

(** ** Notions the properties are stated with *)

(** [ctx] is cancelled at instant [t] or before. *)
Definition cancelled_by (ctx : Context) (t : Z) : bool :=
  match done_at ctx with
  | None => false
  | Some tc => tc <=? t
  end.

(** Every invocation of [fn] on [e] returns an error. *)
Definition always_fails (fn : AttemptFn) (e : email) : Prop :=
  forall k, err (fn k e) <> None.

(** Each element is below the next. *)
Definition increasing (l : list Z) : Prop :=
  forall n a b, nth_error l n = Some a -> nth_error l (S n) = Some b -> a < b.

(** The backoff law as the specification words it: the [n]-th backoff
    computed (from 1) is [2s * 2^n], and the backoffs increase. *)
Definition backoff_law (bs : list Z) : Prop :=
  (forall n d, nth_error bs n = Some d -> d = 2 * Second * 2 ^ (Z.of_nat n + 1))
  /\ increasing bs.

(** The retry count as the specification words it: the run returns
    RetriesExhausted after exactly [N] invocations. *)
Definition exhausted_after (r : result) (N : Z) : Prop :=
  out r = Returned (errors_New ErrExhausted) /\ calls r = Z.to_nat N.

(** The two revisions of the loop, run in the same world, as the
    specification compares them: different attempt counts and different
    first backoffs. *)
Definition variants_differ (rt : Runtime) (ctx : Context) (e : email)
  (fn : AttemptFn) (N start : Z) : Prop :=
  let r0 := Helper0.exponentialBackOffRetry rt ctx e fn N start in
  let r1 := exponentialBackOffRetry rt ctx e fn N start in
  calls r0 <> calls r1 /\ hd_error (backoffs r0) <> hd_error (backoffs r1).

(** ** Sample inputs *)

Module Sample.

Definition runtime : Runtime :=
  {| rand_src := fun k => 12345 + Z.of_nat k;
     select_pick := fun _ => true;
     float_overflow := Int64.min |}.

Definition the_dialer : Dialer := NewDialer "smtp.example.com" 587 "u" "p".

(** [SetTo], [SetSubject] and a text body on a fresh entity. *)
Definition mail : email :=
  set_content
    (set_contentType
       (SetSubject (SetTo (email_zero the_dialer) ["a@b.com"]) "Hi")
       ContentText)
    "hello".

(** An attempt function that is refused every time, after 5 ns. *)
Definition refused : AttemptFn :=
  fun _ _ => {| took := 5; err := Some "connection refused" |}.

(** A transport refused [n] times, then accepted. *)
Definition transport (n : nat) : Transport :=
  {| FormatAddress := fun address _ => address;
     DialAndSend := fun k _ _ =>
       if (k <? n)%nat then {| took := 5; err := Some "connection refused" |}
       else {| took := 5; err := None |} |}.

(** A transport refused every time. *)
Definition dead_transport : Transport :=
  {| FormatAddress := fun address _ => address;
     DialAndSend := fun _ _ _ => {| took := 5; err := Some "connection refused" |} |}.

(** A context with a deadline 50 s after instant 0. *)
Definition in_50s : Context := {| done_at := Some (50 * Second) |}.

(** A context cancelled before instant 0. *)
Definition cancelled : Context := {| done_at := Some (-1) |}.

(** A template engine whose only template, ["hello.html"], renders to a
    greeting of the data. *)
Definition engine : TemplateEngine string :=
  {| Template := unit;
     ParseFiles := fun path =>
       if String.eqb path "hello.html" then inl tt else inr "no such file";
     Execute := fun _ data => (("<p>" ++ data ++ "</p>")%string, nil_error) |}.

End Sample.

(** * Properties *)

Unset Implicit Arguments.

(** ** Basic facts on strings, machine integers and traces *)

Lemma is_empty_true (s : string) : is_empty s = true <-> s = "".
Proof. unfold is_empty. apply String.eqb_eq. Qed.

Lemma is_empty_false (s : string) : is_empty s = false <-> s <> "".
Proof. unfold is_empty. apply String.eqb_neq. Qed.

Lemma wrap64_small (z : Z) : Int64.in_range z -> Int64.wrap64 z = z.
Proof.
  unfold Int64.in_range, Int64.min, Int64.max, Int64.wrap64. intros H.
  rewrite Z.mod_small; lia.
Qed.

Lemma wrap64_overflow : Int64.wrap64 (Int64.max + 1) = Int64.min.
Proof. reflexivity. Qed.

Lemma wrap64_overflow_add : Int64.add Int64.max 1 = Int64.min.
Proof. reflexivity. Qed.

Lemma delay_value : delay = 2 * Second.
Proof. reflexivity. Qed.

Lemma out_log evs r : out (log evs r) = out r.
Proof. reflexivity. Qed.

Lemma finish_log evs r : finish (log evs r) = finish r.
Proof. reflexivity. Qed.

Lemma calls_log evs r :
  calls (log evs r) = (List.length (filter is_call evs) + calls r)%nat.
Proof. unfold calls, log; simpl. now rewrite filter_app, length_app. Qed.

Lemma waits_log evs r :
  waits (log evs r) = (List.length (filter is_retry evs) + waits r)%nat.
Proof. unfold waits, log; simpl. now rewrite filter_app, length_app. Qed.

Lemma backoffs_of_app tr1 tr2 :
  backoffs_of (tr1 ++ tr2) = backoffs_of tr1 ++ backoffs_of tr2.
Proof.
  induction tr1 as [|ev tr1 IH]; simpl; [reflexivity|].
  destruct ev; simpl; now rewrite IH.
Qed.

Lemma jitters_of_app tr1 tr2 :
  jitters_of (tr1 ++ tr2) = jitters_of tr1 ++ jitters_of tr2.
Proof.
  induction tr1 as [|ev tr1 IH]; simpl; [reflexivity|].
  destruct ev; simpl; now rewrite IH.
Qed.

Lemma backoffs_log evs r : backoffs (log evs r) = backoffs_of evs ++ backoffs r.
Proof. unfold backoffs, log; simpl. apply backoffs_of_app. Qed.

Lemma jitters_log evs r : jitters (log evs r) = jitters_of evs ++ jitters r.
Proof. unfold jitters, log; simpl. apply jitters_of_app. Qed.

(** ** Construction: [ConnectionDetails.validate] and [New] *)

(** The checks of [validate] never reach its result. *)
Lemma ConnectionDetails_validate_nil (c : ConnectionDetails) :
  ConnectionDetails_validate c = nil_error.
Proof. reflexivity. Qed.

(** The checks themselves do see the invalid fields: on the all-empty
    connection the four messages are accumulated, and dropped. *)
Example validate_builds_the_message_and_drops_it :
  ConnectionDetails_validate_trace
    {| SmtpHost := ""; SmtpPort := 0; SmtpUser := ""; SmtpPassword := "" |}
  = ("host cannot be emptyport cannot be 0SmtpPassword cannot be emptySmtpUser cannot be empty",
     nil_error).
Proof. reflexivity. Qed.

(** [New] returns a handle and a nil error on every connection. *)
Lemma New_never_fails (g : option Dialer) (c : ConnectionDetails) :
  New g c =
  (Some (NewDialer (SmtpHost c) (SmtpPort c) (SmtpUser c) (SmtpPassword c)),
   (Some (email_zero
            (NewDialer (SmtpHost c) (SmtpPort c) (SmtpUser c) (SmtpPassword c))),
    nil_error)).
Proof. reflexivity. Qed.

(** C1, evaluated on the code.  The claim is that construction fails with
    InvalidConnection when the host, the user or the password is empty or
    the port is not positive.  On the connection with empty host, user and
    password and port 0, and on one whose only defect is a negative port,
    [New] returns an initialized handle and a nil error. *)
Theorem New_accepts_invalid_connection :
  let c0 := {| SmtpHost := ""; SmtpPort := 0; SmtpUser := "";
               SmtpPassword := "" |} in
  let c1 := {| SmtpHost := "smtp.example.com"; SmtpPort := -1;
               SmtpUser := "u"; SmtpPassword := "p" |} in
  snd (New None c0) = (Some (email_zero (NewDialer "" 0 "" "")), nil_error)
  /\ snd (New None c1)
     = (Some (email_zero (NewDialer "smtp.example.com" (-1) "u" "p")),
        nil_error).
Proof. split; reflexivity. Qed.

(** ** The message builder *)

(** Splits on every string comparison left in the goal. *)
Ltac split_eqb :=
  repeat match goal with
         | |- context [String.eqb ?a ?b] => destruct (String.eqb a b)
         end.

Lemma embedded_fold_Embed (l : list string) (gm : Message) :
  embedded (fold_left Embed l gm) = embedded gm ++ l.
Proof.
  revert gm. induction l as [|v l IH]; intros gm; simpl.
  - now rewrite app_nil_r.
  - rewrite IH. simpl. now rewrite <- app_assoc.
Qed.

Lemma attached_fold_Embed (l : list string) (gm : Message) :
  attached (fold_left Embed l gm) = attached gm.
Proof.
  revert gm. induction l as [|v l IH]; intros gm; simpl; [reflexivity|].
  now rewrite IH.
Qed.

Lemma embedded_set_recipients fmt gm field l :
  embedded (set_recipients fmt gm field l) = embedded gm.
Proof. unfold set_recipients. now destruct (0 <? _). Qed.

Lemma attached_set_recipients fmt gm field l :
  attached (set_recipients fmt gm field l) = attached gm.
Proof. unfold set_recipients. now destruct (0 <? _). Qed.

(** Every path of the images-to-embed list is embedded, in order. *)
Lemma getMessage_embeds (fmt : string -> string -> string) (e : email) :
  embedded (getMessage fmt e) = imagesToEmbed e.
Proof.
  unfold getMessage.
  destruct (imagesToEmbed e) as [|v l] eqn:Himg.
  - simpl. rewrite !embedded_set_recipients.
    split_eqb; reflexivity.
  - cbn [List.length]. replace (0 <? Z.of_nat (S (List.length l))) with true
      by (symmetry; apply Z.ltb_lt; lia).
    rewrite embedded_fold_Embed. cbn [embedded SetHeader].
    rewrite !embedded_set_recipients.
    split_eqb; reflexivity.
Qed.

(** No path is ever attached: [getMessage] does not read [attachments]. *)
Lemma getMessage_attaches_nothing (fmt : string -> string -> string)
  (e : email) :
  attached (getMessage fmt e) = [].
Proof.
  unfold getMessage.
  destruct (0 <? Z.of_nat (List.length (imagesToEmbed e)));
    rewrite ?attached_fold_Embed; cbn [attached SetHeader];
    rewrite !attached_set_recipients;
    split_eqb; reflexivity.
Qed.

Lemma Gomail0_getMessage_attaches_nothing (fmt : string -> string -> string)
  (e : email) :
  attached (Gomail0.getMessage fmt e) = [].
Proof.
  unfold Gomail0.getMessage.
  destruct (0 <? Z.of_nat (List.length (imagesToEmbed e)));
    rewrite ?attached_fold_Embed; cbn [attached SetHeader];
    rewrite !attached_set_recipients;
    split_eqb; reflexivity.
Qed.

(** C6, evaluated on the code.  The claim is that the builder embeds each
    path of the images-to-embed list and attaches each path of the
    attachments list.  The first half holds; the second fails: on an email
    with the attachments list [["report.pdf"]] the descriptor has no
    attached file, and so it is on every email, whatever the formatter,
    in both revisions of the builder. *)
Theorem getMessage_drops_attachments :
  let e := SetAttachements
             (SetImagesToEmbed
                (set_content (email_zero (NewDialer "h" 587 "u" "p")) "hello")
                ["logo.png"])
             ["report.pdf"] in
  (attachments e = ["report.pdf"]
   /\ attached (getMessage (fun a _ => a) e) = []
   /\ embedded (getMessage (fun a _ => a) e) = ["logo.png"])
  /\ (forall fmt e', attached (getMessage fmt e') = []
                     /\ attached (Gomail0.getMessage fmt e') = []
                     /\ embedded (getMessage fmt e') = imagesToEmbed e').
Proof.
  split.
  - repeat split; reflexivity.
  - intros fmt e'. split; [|split].
    + apply getMessage_attaches_nothing.
    + apply Gomail0_getMessage_attaches_nothing.
    + apply getMessage_embeds.
Qed.

(** ** Validation before sending *)

Lemma email_Send_unfold rt tr e ctx n start :
  email_Send rt tr e ctx n start =
  match email_validate e with
  | Some m => stop (Returned (Some m)) start
  | None => exponentialBackOffRetry rt ctx e (sendEmail tr) n start
  end.
Proof. reflexivity. Qed.

Lemma email_Send_valid rt tr e ctx n start :
  email_validate e = nil_error ->
  email_Send rt tr e ctx n start
  = exponentialBackOffRetry rt ctx e (sendEmail tr) n start.
Proof. intros H. rewrite email_Send_unfold, H. reflexivity. Qed.

Lemma email_validate_empty_content (e : email) :
  content e = "" -> email_validate e = errors_New ErrContentMissing.
Proof.
  intros H. unfold email_validate.
  now rewrite (proj2 (is_empty_true (content e)) H).
Qed.

Lemma empty_content_effect rt tr e ctx n start :
  content e = "" ->
  out (email_Send rt tr e ctx n start) = Returned (errors_New ErrContentMissing)
  /\ calls (email_Send rt tr e ctx n start) = 0%nat.
Proof.
  intros H. rewrite email_Send_unfold, (email_validate_empty_content e H).
  split; reflexivity.
Qed.

(** C8.  For every email whose body content is the empty string, [Send]
    returns the empty-content validation error at the instant it was
    called, before the retry engine runs: the run has no event, so the
    transport attempt function is invoked zero times. *)
Theorem empty_content_fails_before_transport
  (rt : Runtime) (tr : Transport) (e : email) (ctx : Context)
  (n start : Z) :
  content e = "" ->
  let r := email_Send rt tr e ctx n start in
  out r = Returned (errors_New ErrContentMissing)
  /\ calls r = 0%nat
  /\ trace r = []
  /\ finish r = start.
Proof.
  intros H r. subst r.
  rewrite email_Send_unfold, (email_validate_empty_content e H).
  repeat split; reflexivity.
Qed.

Lemma empty_content_fails_before_transport_witness :
  content (email_zero Sample.the_dialer) = ""
  /\ calls (email_Send Sample.runtime Sample.dead_transport
              (email_zero Sample.the_dialer) Background 3 0) = 0%nat.
Proof.
  split; [reflexivity|].
  apply (empty_content_fails_before_transport Sample.runtime
           Sample.dead_transport (email_zero Sample.the_dialer) Background 3 0).
  reflexivity.
Defined.

(** ** [SetContent] on a type that is neither html nor text *)

(** C10.  For every [Content] whose [Type] is neither ["html"] nor
    ["text"], [SetContent] returns nil and stores no body: the entity
    it leaves is the one it was given with [contentType] set to the
    unrecognized string, so [content] is unchanged; and when the entity
    was fresh, a later [Send] fails with the empty-content validation
    error, without any attempt. *)
Theorem SetContent_unknown_type
  (Data : Type) (processTemplate : string -> Data -> string * error)
  (e : email) (c : Content Data) :
  Type_ c <> ContentHTML ->
  Type_ c <> ContentText ->
  SetContent processTemplate e c = (set_contentType e (Type_ c), nil_error)
  /\ content (fst (SetContent processTemplate e c)) = content e
  /\ contentType (fst (SetContent processTemplate e c)) = Type_ c
  /\ (forall rt tr d ctx n start,
        let e' := fst (SetContent processTemplate (email_zero d) c) in
        let r := email_Send rt tr e' ctx n start in
        out r = Returned (errors_New ErrContentMissing)
        /\ calls r = 0%nat).
Proof.
  intros Hh Ht.
  assert (E : forall e0, SetContent processTemplate e0 c
                         = (set_contentType e0 (Type_ c), nil_error)).
  { intros e0. unfold SetContent.
    rewrite (proj2 (String.eqb_neq _ _) Hh), (proj2 (String.eqb_neq _ _) Ht).
    reflexivity. }
  rewrite !E. split; [reflexivity|]. split; [reflexivity|].
  split; [reflexivity|].
  intros rt tr d ctx n start. rewrite E. cbn [fst].
  apply (empty_content_effect rt tr (set_contentType (email_zero d) (Type_ c))
           ctx n start).
  reflexivity.
Qed.

Lemma SetContent_unknown_type_witness :
  let c := {| Type_ := "markdown"; Content_ := "# hello";
              TemplatePath := ""; Data_ := tt |} in
  let pt := fun (_ : string) (_ : unit) => ("", nil_error) in
  snd (SetContent pt (email_zero Sample.the_dialer) c) = nil_error
  /\ content (fst (SetContent pt (email_zero Sample.the_dialer) c)) = ""
  /\ contentType (fst (SetContent pt (email_zero Sample.the_dialer) c))
     = "markdown".
Proof.
  intros c pt.
  destruct (SetContent_unknown_type unit pt (email_zero Sample.the_dialer) c)
    as (E & Hc & Ht & _).
  - discriminate.
  - discriminate.
  - rewrite E. repeat split; assumption.
Defined.

(** ** The retry loop: one pass *)

Section PassFacts.

Variable rt : Runtime.
Variable ctx : Context.
Variable e : email.
Variable fn : AttemptFn.

(** The backoff computed at loop index [i]. *)
Let backoff_at (i : Z) : Z := Int64.mul delay (pow2_duration rt i).

(** The instant at which invocation [k], started at [now], returns. *)
Let back_at (k : nat) (now : Z) : Z := now + Z.of_N (took (fn k e)).

Lemma Int63n_positive raw n : 0 < n -> Int63n raw n = Some (raw mod n).
Proof. intros H. unfold Int63n. destruct (Z.leb_spec n 0); [lia|reflexivity]. Qed.

Lemma Int63n_faults raw n : n <= 0 -> Int63n raw n = None.
Proof. intros H. unfold Int63n. destruct (Z.leb_spec n 0); [reflexivity|lia]. Qed.

Lemma Int63n_range raw n j : Int63n raw n = Some j -> 0 < n /\ 0 <= j < n.
Proof.
  unfold Int63n. destruct (Z.leb_spec n 0); [discriminate|].
  intros [= <-]. split; [assumption|]. apply Z.mod_pos_bound. assumption.
Qed.

Lemma select_wait_Background k now sleep :
  select_wait rt Background k now sleep = (TimerFired, now + Z.max 0 sleep).
Proof. reflexivity. Qed.

Lemma select_wait_timer k now sleep :
  cancelled_by ctx (now + Z.max 0 sleep) = false ->
  select_wait rt ctx k now sleep = (TimerFired, now + Z.max 0 sleep).
Proof.
  unfold cancelled_by, select_wait. destruct (done_at ctx) as [tc|]; [|reflexivity].
  intros H. apply Z.leb_gt in H.
  destruct (Z.ltb_spec (Z.max now tc) (now + Z.max 0 sleep)); [lia|].
  destruct (Z.ltb_spec (now + Z.max 0 sleep) (Z.max now tc)); [reflexivity|lia].
Qed.

Lemma select_wait_done k now sleep tc :
  done_at ctx = Some tc ->
  Z.max now tc < now + Z.max 0 sleep ->
  select_wait rt ctx k now sleep = (CtxDone, Z.max now tc).
Proof.
  unfold select_wait. intros -> H.
  destruct (Z.ltb_spec (Z.max now tc) (now + Z.max 0 sleep)); [reflexivity|lia].
Qed.

Lemma select_wait_later k now sleep w t :
  select_wait rt ctx k now sleep = (w, t) -> now <= t.
Proof.
  unfold select_wait. destruct (done_at ctx) as [tc|].
  - destruct (Z.ltb_spec (Z.max now tc) (now + Z.max 0 sleep)).
    + intros [= _ <-]. lia.
    + destruct (Z.ltb_spec (now + Z.max 0 sleep) (Z.max now tc));
        intros [= _ <-]; lia.
  - intros [= _ <-]. lia.
Qed.

(** A successful invocation leaves the loop at once. *)
Lemma body_success i k now :
  err (fn k e) = None ->
  body rt ctx e fn i k now
  = Exit (log [Called k None] (stop (Returned nil_error) (back_at k now))).
Proof. intros H. unfold body. rewrite H. reflexivity. Qed.

(** A failed invocation at a loop index that is not positive faults in
    the jitter draw. *)
Lemma body_faults i k now m :
  err (fn k e) = Some m -> i <= 0 ->
  body rt ctx e fn i k now
  = Exit (log [Called k (Some m); Backoff i (backoff_at i)]
              (stop (Panicked "invalid argument to Int63n") (back_at k now))).
Proof.
  intros H Hi. unfold body. rewrite H, (Int63n_faults _ _ Hi). reflexivity.
Qed.

(** A failed invocation at a positive loop index reaches the [select]. *)
Lemma body_failure i k now m :
  err (fn k e) = Some m -> 0 < i ->
  let jitter := rand_src rt k mod i in
  let sleep := Int64.add (backoff_at i) jitter in
  let evs := [Called k (Some m); Backoff i (backoff_at i); Jitter i jitter] in
  body rt ctx e fn i k now
  = match select_wait rt ctx k (back_at k now) sleep with
    | (TimerFired, t) => Next t (evs ++ [Retry i (t - back_at k now)])
    | (CtxDone, t) => Exit (log evs (stop (Returned (errors_New ErrTimeout)) t))
    end.
Proof.
  intros H Hi. unfold body. rewrite H, (Int63n_positive _ _ Hi). reflexivity.
Qed.

(** What a pass that leaves the loop leaves behind. *)
Lemma body_Exit i k now r :
  body rt ctx e fn i k now = Exit r ->
  out r <> OutOfFuel
  /\ calls r = 1%nat /\ waits r = 0%nat
  /\ back_at k now <= finish r
  /\ (backoffs r = [] \/ backoffs r = [backoff_at i])
  /\ (out r = Returned nil_error <-> err (fn k e) = None).
Proof.
  destruct (err (fn k e)) as [m|] eqn:Herr.
  - destruct (Z.leb_spec i 0) as [Hi|Hi].
    + rewrite (body_faults i k now m Herr Hi). intros [= <-].
      cbn. repeat split; try discriminate; try lia. now right.
    + rewrite (body_failure i k now m Herr Hi).
      destruct (select_wait _ _ _ _ _) as [[|] t] eqn:Hs; [discriminate|].
      intros [= <-]. apply select_wait_later in Hs.
      cbn. repeat split; try discriminate; try lia. now right.
  - rewrite (body_success i k now Herr). intros [= <-].
    cbn. repeat split; try discriminate; try lia. now left.
Qed.

(** A pass leaves the loop in one of three ways. *)
Lemma body_Exit_out i k now r :
  body rt ctx e fn i k now = Exit r ->
  out r = Returned nil_error
  \/ out r = Panicked "invalid argument to Int63n"
  \/ out r = Returned (errors_New ErrTimeout).
Proof.
  destruct (err (fn k e)) as [m|] eqn:Herr.
  - destruct (Z.leb_spec i 0) as [Hi|Hi].
    + rewrite (body_faults i k now m Herr Hi). intros [= <-]. right; now left.
    + rewrite (body_failure i k now m Herr Hi).
      destruct (select_wait _ _ _ _ _) as [[|] t] eqn:Hs; [discriminate|].
      intros [= <-]. right; now right.
  - rewrite (body_success i k now Herr). intros [= <-]. now left.
Qed.

(** What a pass that falls through to the next one leaves behind. *)
Lemma body_Next i k now t evs :
  body rt ctx e fn i k now = Next t evs ->
  0 < i
  /\ back_at k now <= t
  /\ exists m,
       err (fn k e) = Some m
       /\ evs = [Called k (Some m); Backoff i (backoff_at i);
                 Jitter i (rand_src rt k mod i); Retry i (t - back_at k now)].
Proof.
  destruct (err (fn k e)) as [m|] eqn:Herr.
  - destruct (Z.leb_spec i 0) as [Hi|Hi].
    + rewrite (body_faults i k now m Herr Hi). discriminate.
    + rewrite (body_failure i k now m Herr Hi).
      destruct (select_wait _ _ _ _ _) as [[|] t'] eqn:Hs; [|discriminate].
      intros [= <- <-]. apply select_wait_later in Hs.
      split; [assumption|]. split; [assumption|]. exists m. split; reflexivity.
  - rewrite (body_success i k now Herr). discriminate.
Qed.

End PassFacts.

(** ** The retry loop, documented revision: every run *)

Section LoopFacts.

Variable rt : Runtime.
Variable e : email.
Variable fn : AttemptFn.
Variable retry : Z.

Lemma loop_S ctx fuel i k now :
  loop rt ctx e fn retry (S fuel) i k now
  = if i <=? retry then
      match body rt ctx e fn i k now with
      | Exit r => r
      | Next now' evs =>
          log evs (loop rt ctx e fn retry fuel (Int64.add i 1) (S k) now')
      end
    else stop (Returned (errors_New ErrExhausted)) now.
Proof. reflexivity. Qed.

Lemma next_index i : 1 <= i -> i < Int64.max -> Int64.add i 1 = i + 1.
Proof.
  intros H1 H2. unfold Int64.add. apply wrap64_small.
  unfold Int64.in_range, Int64.min, Int64.max in *. lia.
Qed.

(** Splits a run of [loop] with fuel [S fuel] on its condition and on
    what the pass did. *)
Ltac loop_cases ctx i k now :=
  rewrite loop_S;
  let Hg := fresh "Hguard" in
  let Hb := fresh "Hbody" in
  destruct (Z.leb_spec i retry) as [Hg|Hg];
  [ destruct (body rt ctx e fn i k now) as [r|now' evs] eqn:Hb | ].

(** The clock only moves forward. *)
Lemma loop_finish_ge ctx fuel : forall i k now,
  now <= finish (loop rt ctx e fn retry fuel i k now).
Proof.
  induction fuel as [|fuel IH]; intros i k now; [cbn; lia|].
  loop_cases ctx i k now.
  - apply body_Exit in Hbody. destruct Hbody as (_ & _ & _ & H & _). lia.
  - apply body_Next in Hbody. destruct Hbody as (_ & H & _).
    rewrite finish_log. specialize (IH (Int64.add i 1) (S k) now'). lia.
  - cbn. lia.
Qed.

(** The attempt function is invoked at most once more than the number of
    backoff waits that ran to their end. *)
Lemma loop_calls_waits ctx fuel : forall i k now,
  (calls (loop rt ctx e fn retry fuel i k now)
   <= waits (loop rt ctx e fn retry fuel i k now) + 1)%nat.
Proof.
  induction fuel as [|fuel IH]; intros i k now; [cbn; lia|].
  loop_cases ctx i k now.
  - apply body_Exit in Hbody. destruct Hbody as (_ & Hc & Hw & _). lia.
  - apply body_Next in Hbody. destruct Hbody as (_ & _ & m & _ & ->).
    rewrite calls_log, waits_log. cbn.
    specialize (IH (Int64.add i 1) (S k) now'). lia.
  - cbn. lia.
Qed.

(** A run that ends on cancellation made exactly one invocation more
    than it completed waits; a run that ends exhausted made as many. *)
Lemma loop_calls_by_outcome ctx fuel : forall i k now,
  let r := loop rt ctx e fn retry fuel i k now in
  (out r = Returned (errors_New ErrTimeout) -> calls r = (waits r + 1)%nat)
  /\ (out r = Returned (errors_New ErrExhausted) -> calls r = waits r).
Proof.
  induction fuel as [|fuel IH]; intros i k now; [cbn; split; discriminate|].
  cbn zeta. loop_cases ctx i k now.
  - pose proof (body_Exit_out _ _ _ _ _ _ _ _ Hbody) as Ho.
    apply body_Exit in Hbody. destruct Hbody as (_ & Hc & Hw & _).
    split; intros Ho'; [lia|].
    rewrite Ho' in Ho. destruct Ho as [Ho|[Ho|Ho]]; discriminate.
  - apply body_Next in Hbody. destruct Hbody as (_ & _ & m & _ & ->).
    rewrite out_log, calls_log, waits_log. cbn.
    specialize (IH (Int64.add i 1) (S k) now'). cbn zeta in IH.
    destruct IH as [IH1 IH2]. split; intros Ho.
    + rewrite (IH1 Ho). lia.
    + rewrite (IH2 Ho). lia.
  - cbn. split; [discriminate|reflexivity].
Qed.

(** With [retry] below the largest int the loop index never wraps, and
    the attempt function is invoked at most [retry + 1 - i] times from
    index [i] on. *)
Lemma loop_calls_le ctx fuel : forall i k now,
  1 <= i -> retry < Int64.max ->
  (calls (loop rt ctx e fn retry fuel i k now) <= Z.to_nat (retry + 1 - i))%nat.
Proof.
  induction fuel as [|fuel IH]; intros i k now Hi Hr; [cbn; lia|].
  loop_cases ctx i k now.
  - apply body_Exit in Hbody. destruct Hbody as (_ & Hc & _). lia.
  - apply body_Next in Hbody. destruct Hbody as (_ & _ & m & _ & ->).
    rewrite calls_log, next_index by lia. cbn.
    specialize (IH (i + 1) (S k) now' ltac:(lia) Hr). lia.
  - cbn. lia.
Qed.

(** The run always ends: the fuel [exponentialBackOffRetry] gives its
    loop is never used up, also when the loop index wraps at the largest
    int (the pass at the wrapped index returns or faults). *)
Lemma loop_total ctx fuel : forall i k now,
  1 <= i <= Int64.max -> retry <= Int64.max ->
  (Z.to_nat (retry + 1 - i) < fuel)%nat ->
  out (loop rt ctx e fn retry fuel i k now) <> OutOfFuel.
Proof.
  induction fuel as [|fuel IH]; intros i k now Hi Hr Hf; [lia|].
  loop_cases ctx i k now.
  - apply body_Exit in Hbody. tauto.
  - rewrite out_log. destruct (Z.eq_dec i Int64.max) as [->|Hne].
    + rewrite wrap64_overflow_add.
      destruct fuel as [|fuel]; [lia|]. rewrite loop_S.
      destruct (Z.leb_spec Int64.min retry) as [_|Hlt];
        [|unfold Int64.min, Int64.max in *; lia].
      destruct (body rt ctx e fn Int64.min (S k) now') as [r'|t' evs'] eqn:Hb'.
      * apply body_Exit in Hb'. tauto.
      * apply body_Next in Hb'. unfold Int64.min in Hb'. lia.
    + rewrite next_index by lia. apply IH; lia.
  - cbn. discriminate.
Qed.

Lemma exponentialBackOffRetry_total ctx start :
  Int64.in_range retry ->
  out (exponentialBackOffRetry rt ctx e fn retry start) <> OutOfFuel.
Proof.
  intros [_ Hr]. unfold exponentialBackOffRetry.
  apply loop_total; unfold Int64.max in *; lia.
Qed.

(** *** A context cancelled after the run is over changes nothing *)

Lemma cancelled_by_mono ctx t t' :
  t <= t' -> cancelled_by ctx t' = false -> cancelled_by ctx t = false.
Proof.
  unfold cancelled_by. destruct (done_at ctx) as [tc|]; [|reflexivity].
  intros H H'. apply Z.leb_gt in H'. apply Z.leb_gt. lia.
Qed.

Lemma body_late_cancel ctx i k now :
  match body rt Background e fn i k now with
  | Exit r => body rt ctx e fn i k now = Exit r
  | Next t evs =>
      cancelled_by ctx t = false -> body rt ctx e fn i k now = Next t evs
  end.
Proof.
  destruct (err (fn k e)) as [m|] eqn:Herr.
  - destruct (Z.leb_spec i 0) as [Hi|Hi].
    + now rewrite !(body_faults rt _ e fn i k now m Herr Hi).
    + rewrite !(body_failure rt _ e fn i k now m Herr Hi). cbn zeta.
      rewrite select_wait_Background. intros Hc.
      now rewrite (select_wait_timer rt ctx k _ _ Hc).
  - now rewrite !(body_success rt _ e fn i k now Herr).
Qed.

Lemma loop_late_cancel ctx fuel : forall i k now,
  cancelled_by ctx (finish (loop rt Background e fn retry fuel i k now)) = false ->
  loop rt ctx e fn retry fuel i k now
  = loop rt Background e fn retry fuel i k now.
Proof.
  induction fuel as [|fuel IH]; intros i k now; [reflexivity|].
  rewrite !loop_S. destruct (Z.leb_spec i retry) as [Hg|Hg]; [|reflexivity].
  pose proof (body_late_cancel ctx i k now) as Hb.
  destruct (body rt Background e fn i k now) as [r|now' evs].
  - now rewrite Hb.
  - rewrite finish_log. intros Hc.
    rewrite Hb.
    + now rewrite IH.
    + apply (cancelled_by_mono ctx _ _
               (loop_finish_ge Background fuel (Int64.add i 1) (S k) now') Hc).
Qed.

(** *** The attempt function fails every time, the context is never
        cancelled *)

Lemma loop_always_fails fuel : forall i k now,
  always_fails fn e ->
  1 <= i -> retry < Int64.max ->
  (Z.to_nat (retry + 1 - i) < fuel)%nat ->
  let r := loop rt Background e fn retry fuel i k now in
  out r = Returned (errors_New ErrExhausted)
  /\ calls r = Z.to_nat (retry + 1 - i)
  /\ waits r = Z.to_nat (retry + 1 - i).
Proof.
  induction fuel as [|fuel IH]; intros i k now Hfail Hi Hr Hf; [lia|].
  cbn zeta. rewrite loop_S. destruct (Z.leb_spec i retry) as [Hg|Hg].
  - destruct (err (fn k e)) as [m|] eqn:Herr; [|now destruct (Hfail k)].
    rewrite (body_failure rt Background e fn i k now m Herr) by lia.
    cbn zeta. rewrite select_wait_Background.
    rewrite out_log, calls_log, waits_log, next_index by lia.
    destruct (IH (i + 1) (S k)
                (now + Z.of_N (took (fn k e))
                 + Z.max 0 (Int64.add (Int64.mul delay (pow2_duration rt i))
                                      (rand_src rt k mod i)))
                Hfail ltac:(lia) Hr ltac:(lia)) as (Ho & Hc & Hw).
    rewrite Ho, Hc, Hw. cbn [filter is_call is_retry List.length app].
    repeat split; lia.
  - cbn. repeat split; lia.
Qed.

End LoopFacts.

(** ** The retry count *)

(** With no retry allowed the loop is not entered, whatever the context
    and the attempt function are. *)
Lemma no_retry_no_attempt rt ctx e fn retry start :
  retry <= 0 ->
  exponentialBackOffRetry rt ctx e fn retry start
  = stop (Returned (errors_New ErrExhausted)) start.
Proof.
  intros H. unfold exponentialBackOffRetry. rewrite loop_S.
  destruct (Z.leb_spec 1 retry); [lia|reflexivity].
Qed.

(** With an attempt function that always fails, a run ends exhausted or
    cancelled, and one that ends exhausted invoked the attempt function
    once per loop index left. *)
Lemma loop_always_fails_any_context rt ctx e fn retry fuel : forall i k now,
  always_fails fn e ->
  1 <= i -> retry < Int64.max ->
  (Z.to_nat (retry + 1 - i) < fuel)%nat ->
  let r := loop rt ctx e fn retry fuel i k now in
  (out r = Returned (errors_New ErrExhausted)
   \/ out r = Returned (errors_New ErrTimeout))
  /\ (out r = Returned (errors_New ErrExhausted) ->
      calls r = Z.to_nat (retry + 1 - i)).
Proof.
  induction fuel as [|fuel IH]; intros i k now Hfail Hi Hr Hf; [lia|].
  cbn zeta. rewrite loop_S. destruct (Z.leb_spec i retry) as [Hg|Hg].
  - destruct (err (fn k e)) as [m|] eqn:Herr; [|now destruct (Hfail k)].
    rewrite (body_failure rt ctx e fn i k now m Herr) by lia. cbn zeta.
    destruct (select_wait _ _ _ _ _) as [[|] t].
    + rewrite out_log, calls_log, next_index by lia.
      cbn [filter is_call List.length app].
      destruct (IH (i + 1) (S k) t Hfail ltac:(lia) Hr ltac:(lia))
        as (Ho & Hc).
      split; [exact Ho|]. intros H. rewrite (Hc H). lia.
    + split; [now right|]. discriminate.
  - split; [now left|]. intros _. cbn. lia.
Qed.

(** The retry count of the documented revision.  For every maxRetries
    [N >= 0] (below the largest int, where the loop index would wrap) and
    every attempt function that always fails, a run ends with
    RetriesExhausted or, if the context was cancelled during a wait, with
    Timeout; when it returns RetriesExhausted the attempt function was
    invoked exactly [N] times; and it does return RetriesExhausted, after
    exactly [N] invocations, when the context is not cancelled by the
    instant the retries are exhausted.  For [N = 0] no attempt is made
    and RetriesExhausted is returned at the instant of the call, whatever
    the context. *)
Lemma retry_count_exhausted
  (rt : Runtime) (ctx : Context) (e : email) (fn : AttemptFn) (N start : Z) :
  0 <= N < Int64.max ->
  always_fails fn e ->
  let r := exponentialBackOffRetry rt ctx e fn N start in
  (out r = Returned (errors_New ErrExhausted)
   \/ out r = Returned (errors_New ErrTimeout))
  /\ (out r = Returned (errors_New ErrExhausted) -> calls r = Z.to_nat N)
  /\ (cancelled_by ctx
        (finish (exponentialBackOffRetry rt Background e fn N start)) = false ->
      out r = Returned (errors_New ErrExhausted) /\ calls r = Z.to_nat N)
  /\ (N = 0 ->
      out r = Returned (errors_New ErrExhausted)
      /\ trace r = [] /\ finish r = start).
Proof.
  intros HN Hfail r. subst r. unfold exponentialBackOffRetry.
  destruct (loop_always_fails_any_context rt ctx e fn N (S (Z.to_nat N)) 1
              0%nat start Hfail ltac:(lia) ltac:(lia) ltac:(lia)) as (Ho & Hc).
  replace (N + 1 - 1) with N in Hc by lia.
  split; [exact Ho|]. split; [exact Hc|]. split.
  - intros Hctx.
    rewrite (loop_late_cancel rt e fn N ctx _ 1 0%nat start Hctx).
    destruct (loop_always_fails rt e fn N (S (Z.to_nat N)) 1 0%nat start
                Hfail ltac:(lia) ltac:(lia) ltac:(lia)) as (Ho' & Hc' & _).
    split; [exact Ho'|]. rewrite Hc'. f_equal. lia.
  - intros ->. repeat split.
Qed.

(** The scenario of the specification: one retry allowed, a transport that
    always fails, a context never cancelled. *)
Example one_retry_one_attempt :
  let r := email_Send Sample.runtime Sample.dead_transport Sample.mail
             Background 1 0 in
  out r = Returned (errors_New ErrExhausted) /\ calls r = 1%nat.
Proof. split; reflexivity. Qed.

(** ** The backoffs of a run *)

Section BackoffFacts.

Variable rt : Runtime.
Variable ctx : Context.
Variable e : email.
Variable fn : AttemptFn.
Variable retry : Z.

(** While the product fits the 64-bit [Duration], the backoff at loop
    index [i] is two seconds times [2^i]. *)
Lemma backoff_value i :
  0 <= i <= 32 -> Int64.mul delay (pow2_duration rt i) = 2 * Second * 2 ^ i.
Proof.
  intros Hi. unfold pow2_duration.
  destruct (Z.ltb_spec i 0); [lia|]. destruct (Z.leb_spec i 62); [|lia].
  rewrite delay_value. unfold Int64.mul. apply wrap64_small.
  assert (H1 : 2 ^ i <= 2 ^ 32) by (apply Z.pow_le_mono_r; lia).
  assert (H2 : 0 < 2 ^ i) by (apply Z.pow_pos_nonneg; lia).
  change (2 ^ 32) with 4294967296 in H1.
  unfold Int64.in_range, Int64.min, Int64.max, Second.
  change (2 ^ 63) with 9223372036854775808. lia.
Qed.

(** At index 33 the product has left the 64-bit range: the backoff is
    negative. *)
Lemma backoff_wraps_at_33 :
  Int64.mul delay (pow2_duration rt 33) = -1266874889709551616.
Proof. reflexivity. Qed.

(** The [n]-th backoff computed by a run that enters the loop at index
    [i] is the one of index [i + n]. *)
Lemma loop_backoffs fuel : forall i k now n d,
  1 <= i -> i + Z.of_nat n < Int64.max ->
  nth_error (backoffs (loop rt ctx e fn retry fuel i k now)) n = Some d ->
  d = Int64.mul delay (pow2_duration rt (i + Z.of_nat n)).
Proof.
  induction fuel as [|fuel IH]; intros i k now n d Hi Hn;
    [cbn; now rewrite nth_error_nil|].
  rewrite loop_S. destruct (Z.leb_spec i retry) as [Hg|Hg].
  - destruct (body rt ctx e fn i k now) as [r|now' evs] eqn:Hbody.
    + apply body_Exit in Hbody. destruct Hbody as (_ & _ & _ & _ & [->| ->] & _).
      * now rewrite nth_error_nil.
      * destruct n as [|n]; cbn; [|now rewrite nth_error_nil].
        intros [= <-]. now rewrite Z.add_0_r.
    + apply body_Next in Hbody. destruct Hbody as (_ & _ & m & _ & ->).
      rewrite backoffs_log. destruct n as [|n]; cbn.
      * intros [= <-]. now rewrite Z.add_0_r.
      * rewrite next_index by lia. intros H.
        rewrite (IH (i + 1) (S k) now' n d ltac:(lia) ltac:(lia) H).
        do 2 f_equal. lia.
  - cbn. now rewrite nth_error_nil.
Qed.

(** Every failed invocation computes a backoff, and nothing else does. *)
Lemma loop_backoffs_failures fuel : forall i k now,
  List.length (backoffs (loop rt ctx e fn retry fuel i k now))
  = failures (loop rt ctx e fn retry fuel i k now).
Proof.
  induction fuel as [|fuel IH]; intros i k now; [reflexivity|].
  rewrite loop_S. destruct (Z.leb_spec i retry) as [Hg|Hg]; [|reflexivity].
  unfold body.
  destruct (err (fn k e)) as [m|]; [|reflexivity].
  destruct (Int63n (rand_src rt k) i) as [j|]; [|reflexivity].
  destruct (select_wait _ _ _ _ _) as [[|] t]; [|reflexivity].
  rewrite backoffs_log. unfold failures in *. cbn.
  rewrite IH. reflexivity.
Qed.

End BackoffFacts.

(** The backoffs of the documented revision.  In every run, each failed
    invocation computes one backoff; the [n]-th backoff computed, for [n]
    from 1 to 32, is two seconds times [2^n], so the first is 4 seconds,
    and over these the backoff strictly increases.  (From the 33rd on,
    the product no longer fits the 64-bit [Duration].) *)
Lemma backoff_law_first_32
  (rt : Runtime) (ctx : Context) (e : email) (fn : AttemptFn)
  (retry start : Z) :
  let r := exponentialBackOffRetry rt ctx e fn retry start in
  backoff_law (firstn 32 (backoffs r))
  /\ List.length (backoffs r) = failures r
  /\ (forall d, hd_error (backoffs r) = Some d -> d = 4 * Second).
Proof.
  intros r. subst r. unfold exponentialBackOffRetry.
  assert (Hnth : forall n d,
    nth_error
      (firstn 32 (backoffs (loop rt ctx e fn retry (S (Z.to_nat retry)) 1 0 start)))
      n = Some d ->
    d = 2 * Second * 2 ^ (Z.of_nat n + 1)).
  { intros n d. rewrite nth_error_firstn.
    destruct (Nat.ltb_spec n 32) as [Hn|Hn]; [|discriminate].
    intros H. apply loop_backoffs in H; [|lia|unfold Int64.max; lia].
    rewrite H, backoff_value by lia. do 2 f_equal. lia. }
  split; [split|split].
  - exact Hnth.
  - intros n a b Ha Hb. apply Hnth in Ha. apply Hnth in Hb. subst a b.
    replace (Z.of_nat (S n) + 1) with (Z.succ (Z.of_nat n + 1)) by lia.
    rewrite Z.pow_succ_r by lia.
    assert (0 < 2 ^ (Z.of_nat n + 1)) by (apply Z.pow_pos_nonneg; lia).
    unfold Second. lia.
  - apply loop_backoffs_failures.
  - intros d Hd. rewrite <- nth_error_0 in Hd.
    apply loop_backoffs in Hd; [|lia|unfold Int64.max; lia].
    rewrite Hd, backoff_value by (cbn; lia). reflexivity.
Qed.

(** The backoffs of a run of three failed attempts. *)
Example backoffs_of_three_failures :
  backoffs (exponentialBackOffRetry Sample.runtime Background Sample.mail
              Sample.refused 3 0)
  = [4 * Second; 8 * Second; 16 * Second].
Proof. reflexivity. Qed.

(** C3 as stated fails: with 34 retries, an attempt function that always
    fails and a context that is never cancelled, the 33rd backoff
    computed is negative, neither [2s * 2^33] nor above the 32nd. *)
Lemma backoff_law_fails_at_33 :
  ~ backoff_law
      (backoffs (exponentialBackOffRetry Sample.runtime Background Sample.mail
                   Sample.refused 34 0)).
Proof.
  intros [H _].
  assert (E : nth_error
                (backoffs (exponentialBackOffRetry Sample.runtime Background
                             Sample.mail Sample.refused 34 0)) 32
              = Some (-1266874889709551616))
    by (vm_compute; reflexivity).
  apply H in E. vm_compute in E. discriminate.
Qed.

(** ** The jitter draw *)

Section JitterFacts.

Variable rt : Runtime.
Variable ctx : Context.
Variable e : email.
Variable fn : AttemptFn.
Variable retry : Z.

Lemma body_Exit_jitters i k now r :
  body rt ctx e fn i k now = Exit r ->
  jitters r = [] \/ (0 < i /\ jitters r = [(i, rand_src rt k mod i)]).
Proof.
  destruct (err (fn k e)) as [m|] eqn:Herr.
  - destruct (Z.leb_spec i 0) as [Hi|Hi].
    + rewrite (body_faults rt ctx e fn i k now m Herr Hi). intros [= <-].
      now left.
    + rewrite (body_failure rt ctx e fn i k now m Herr Hi).
      destruct (select_wait _ _ _ _ _) as [[|] t] eqn:Hs; [discriminate|].
      intros [= <-]. right. split; [assumption|reflexivity].
  - rewrite (body_success rt ctx e fn i k now Herr). intros [= <-]. now left.
Qed.

Lemma body_no_fault i k now r msg :
  0 < i -> body rt ctx e fn i k now = Exit r -> out r <> Panicked msg.
Proof.
  intros Hi. destruct (err (fn k e)) as [m|] eqn:Herr.
  - rewrite (body_failure rt ctx e fn i k now m Herr Hi).
    destruct (select_wait _ _ _ _ _) as [[|] t] eqn:Hs; [discriminate|].
    intros [= <-]. discriminate.
  - rewrite (body_success rt ctx e fn i k now Herr). intros [= <-].
    discriminate.
Qed.

(** In the documented revision the loop index is positive at every pass,
    so no draw faults. *)
Lemma loop_no_fault fuel : forall i k now msg,
  1 <= i -> retry < Int64.max ->
  out (loop rt ctx e fn retry fuel i k now) <> Panicked msg.
Proof.
  induction fuel as [|fuel IH]; intros i k now msg Hi Hr; [discriminate|].
  rewrite loop_S. destruct (Z.leb_spec i retry) as [Hg|Hg]; [|discriminate].
  destruct (body rt ctx e fn i k now) as [r|now' evs] eqn:Hbody.
  - apply (body_no_fault i k now r msg ltac:(lia) Hbody).
  - rewrite out_log, next_index by lia. apply IH; lia.
Qed.

(** The [n]-th draw of a run that enters the loop at index [i] has the
    bound [i + n] and falls below it. *)
Lemma loop_jitters fuel : forall i k now n b j,
  1 <= i -> i + Z.of_nat n < Int64.max ->
  nth_error (jitters (loop rt ctx e fn retry fuel i k now)) n = Some (b, j) ->
  b = i + Z.of_nat n /\ 0 <= j < b.
Proof.
  induction fuel as [|fuel IH]; intros i k now n b j Hi Hn;
    [cbn; now rewrite nth_error_nil|].
  rewrite loop_S. destruct (Z.leb_spec i retry) as [Hg|Hg].
  - destruct (body rt ctx e fn i k now) as [r|now' evs] eqn:Hbody.
    + apply body_Exit_jitters in Hbody. destruct Hbody as [->|[_ ->]].
      * now rewrite nth_error_nil.
      * destruct n as [|n]; cbn; [|now rewrite nth_error_nil].
        intros [= <- <-]. split; [lia|]. apply Z.mod_pos_bound. lia.
    + apply body_Next in Hbody. destruct Hbody as (_ & _ & m & _ & ->).
      rewrite jitters_log. destruct n as [|n]; cbn.
      * intros [= <- <-]. split; [lia|]. apply Z.mod_pos_bound. lia.
      * rewrite next_index by lia. intros H.
        destruct (IH (i + 1) (S k) now' n b j ltac:(lia) ltac:(lia) H) as [-> Hj].
        split; lia.
  - cbn. now rewrite nth_error_nil.
Qed.

(** The documented revision: no run faults, every draw has a positive
    bound and falls in [[0, bound)], and the first draw, of bound 1, is
    zero. *)
Lemma jitter_well_defined start :
  retry < Int64.max ->
  let r := exponentialBackOffRetry rt ctx e fn retry start in
  (forall msg, out r <> Panicked msg)
  /\ (forall n b j, (Z.of_nat n < Int64.max - 1) ->
        nth_error (jitters r) n = Some (b, j) ->
        b = Z.of_nat n + 1 /\ 0 <= j < b)
  /\ (forall b j, hd_error (jitters r) = Some (b, j) -> b = 1 /\ j = 0).
Proof.
  intros Hr r. subst r. unfold exponentialBackOffRetry. split; [|split].
  - intros msg. apply loop_no_fault; lia.
  - intros n b j Hn H. apply loop_jitters in H; lia.
  - intros b j H. rewrite <- nth_error_0 in H.
    apply loop_jitters in H; [lia|lia|unfold Int64.max; cbn; lia].
Qed.

End JitterFacts.

(** ** The earlier revision of the loop *)

Lemma Helper0_loop_S rt ctx e fn retry fuel i k now :
  Helper0.loop rt ctx e fn retry (S fuel) i k now
  = if i <? retry then
      match body rt ctx e fn i k now with
      | Exit r => r
      | Next now' evs =>
          log evs (Helper0.loop rt ctx e fn retry fuel (Int64.add i 1) (S k) now')
      end
    else stop (Returned (errors_New ErrExhausted)) now.
Proof. reflexivity. Qed.

(** The first pass of the earlier revision runs at index 0: it leaves the
    loop, by success or by the fault of the draw. *)
Lemma Helper0_first_pass rt ctx e fn retry start :
  1 <= retry ->
  Helper0.exponentialBackOffRetry rt ctx e fn retry start
  = match err (fn 0%nat e) with
    | None =>
        log [Called 0 None]
            (stop (Returned nil_error) (start + Z.of_N (took (fn 0%nat e))))
    | Some m =>
        log [Called 0 (Some m); Backoff 0 (2 * Second)]
            (stop (Panicked "invalid argument to Int63n")
                  (start + Z.of_N (took (fn 0%nat e))))
    end.
Proof.
  intros Hr. unfold Helper0.exponentialBackOffRetry. rewrite Helper0_loop_S.
  destruct (Z.ltb_spec 0 retry); [|lia].
  destruct (err (fn 0%nat e)) as [m|] eqn:Herr.
  - now rewrite (body_faults rt ctx e fn 0 0%nat start m Herr ltac:(lia)).
  - now rewrite (body_success rt ctx e fn 0 0%nat start Herr).
Qed.

(** C4, evaluated on the earlier revision of helper.go.  The claim is
    that the bound of every jitter draw is positive, so that no pass can
    fault.  In the loop [for i := 0; i < retry; i++] the first draw is
    [rand.Int63n(0)]: whenever a retry is allowed and the first attempt
    fails, the run faults there, after one invocation, with one backoff of
    2 seconds computed and no jitter drawn. *)
Theorem Helper0_first_draw_faults
  (rt : Runtime) (ctx : Context) (e : email) (fn : AttemptFn)
  (retry start : Z) :
  1 <= retry ->
  err (fn 0%nat e) <> None ->
  let r := Helper0.exponentialBackOffRetry rt ctx e fn retry start in
  out r = Panicked "invalid argument to Int63n"
  /\ calls r = 1%nat
  /\ backoffs r = [2 * Second]
  /\ jitters r = [].
Proof.
  intros Hr Hfail r. subst r. rewrite Helper0_first_pass by assumption.
  destruct (err (fn 0%nat e)) as [m|]; [|contradiction].
  repeat split.
Qed.

Lemma Helper0_first_draw_faults_witness :
  out (Helper0.exponentialBackOffRetry Sample.runtime Background Sample.mail
         Sample.refused 1 0) = Panicked "invalid argument to Int63n".
Proof.
  apply (Helper0_first_draw_faults Sample.runtime Background Sample.mail
           Sample.refused 1 0).
  - lia.
  - discriminate.
Defined.

(** ** The first passes of the documented revision, step by step *)

Section FirstPasses.

Variable rt : Runtime.
Variable ctx : Context.
Variable e : email.
Variable fn : AttemptFn.
Variable retry : Z.

(** The sleep computed at a loop index from 1 to 32 is the backoff plus
    the draw: nothing wraps, and the sleep is positive. *)
Lemma sleep_value i k :
  1 <= i <= 32 ->
  Int64.add (Int64.mul delay (pow2_duration rt i)) (rand_src rt k mod i)
  = 2 * Second * 2 ^ i + rand_src rt k mod i.
Proof.
  intros Hi. rewrite backoff_value by lia. unfold Int64.add.
  apply wrap64_small.
  pose proof (Z.mod_pos_bound (rand_src rt k) i ltac:(lia)) as Hj.
  assert (H1 : 2 ^ i <= 2 ^ 32) by (apply Z.pow_le_mono_r; lia).
  assert (H2 : 0 < 2 ^ i) by (apply Z.pow_pos_nonneg; lia).
  change (2 ^ 32) with 4294967296 in H1.
  unfold Int64.in_range, Int64.min, Int64.max, Second.
  change (2 ^ 63) with 9223372036854775808. lia.
Qed.


(** A pass at an index from 1 to 32 whose attempt fails, entered with a
    context that is cancelled before the wait is over: the run ends with
    the timeout error, at the end of the attempt or at the cancellation,
    whichever is later. *)
Lemma loop_pass_timeout fuel i k now m tc :
  1 <= i <= 32 -> i <= retry ->
  err (fn k e) = Some m ->
  done_at ctx = Some tc ->
  let back := now + Z.of_N (took (fn k e)) in
  tc < back + 2 * Second * 2 ^ i ->
  loop rt ctx e fn retry (S fuel) i k now
  = log [Called k (Some m); Backoff i (2 * Second * 2 ^ i);
         Jitter i (rand_src rt k mod i)]
        (stop (Returned (errors_New ErrTimeout)) (Z.max back tc)).
Proof.
  intros Hi Hg Herr Hd back Htc. rewrite loop_S.
  destruct (Z.leb_spec i retry); [|lia].
  rewrite (body_failure rt ctx e fn i k now m Herr) by lia. cbn zeta.
  rewrite sleep_value, backoff_value by lia. fold back.
  pose proof (Z.mod_pos_bound (rand_src rt k) i ltac:(lia)).
  assert (0 < 2 ^ i) by (apply Z.pow_pos_nonneg; lia).
  rewrite (select_wait_done rt ctx k _ _ tc Hd); [reflexivity|].
  unfold Second in *. lia.
Qed.

(** A pass at an index from 1 to 32 whose attempt fails, in any context:
    the [select] decides. *)
Lemma loop_pass_failure fuel i k now m :
  1 <= i <= 32 -> i <= retry ->
  err (fn k e) = Some m ->
  let back := now + Z.of_N (took (fn k e)) in
  let sleep := 2 * Second * 2 ^ i + rand_src rt k mod i in
  let evs := [Called k (Some m); Backoff i (2 * Second * 2 ^ i);
              Jitter i (rand_src rt k mod i)] in
  loop rt ctx e fn retry (S fuel) i k now
  = match select_wait rt ctx k back sleep with
    | (TimerFired, t) =>
        log (evs ++ [Retry i (t - back)])
            (loop rt ctx e fn retry fuel (i + 1) (S k) t)
    | (CtxDone, t) => log evs (stop (Returned (errors_New ErrTimeout)) t)
    end.
Proof.
  intros Hi Hg Herr back sleep evs. rewrite loop_S.
  destruct (Z.leb_spec i retry); [|lia].
  rewrite (body_failure rt ctx e fn i k now m Herr) by lia. cbn zeta.
  rewrite sleep_value, backoff_value by lia. fold back. fold sleep.
  destruct (select_wait rt ctx k back sleep) as [[|] t]; [|reflexivity].
  rewrite next_index by (unfold Int64.max; lia). reflexivity.
Qed.

(** When the timer case runs, it runs at the instant the timer fires. *)
Lemma select_wait_timer_instant k now sleep t :
  select_wait rt ctx k now sleep = (TimerFired, t) ->
  t = now + Z.max 0 sleep.
Proof.
  unfold select_wait. destruct (done_at ctx) as [tc|].
  - destruct (Z.ltb_spec (Z.max now tc) (now + Z.max 0 sleep)); [discriminate|].
    destruct (Z.ltb_spec (now + Z.max 0 sleep) (Z.max now tc)).
    + now intros [= <-].
    + destruct (select_pick rt k); [|discriminate]. now intros [= <-].
  - now intros [= <-].
Qed.

(** A pass whose attempt succeeds returns nil at the end of the attempt. *)
Lemma loop_pass_success fuel i k now :
  i <= retry ->
  err (fn k e) = None ->
  loop rt ctx e fn retry (S fuel) i k now
  = log [Called k None]
        (stop (Returned nil_error) (now + Z.of_N (took (fn k e)))).
Proof.
  intros Hg Herr. rewrite loop_S. destruct (Z.leb_spec i retry); [|lia].
  now rewrite (body_success rt ctx e fn i k now Herr).
Qed.

End FirstPasses.

(** ** Cancellation *)

(** In every [Send], the adapter is invoked at most once more than the
    number of backoff waits that ran to their end. *)
Lemma Send_calls_waits rt tr e ctx n start :
  (calls (email_Send rt tr e ctx n start)
   <= waits (email_Send rt tr e ctx n start) + 1)%nat.
Proof.
  rewrite email_Send_unfold. destruct (email_validate e); [cbn; lia|].
  apply loop_calls_waits.
Qed.

(** A [Send] that ends with the timeout error made exactly one invocation
    more than it completed waits. *)
Lemma Send_timeout_calls rt tr e ctx n start :
  email_validate e = nil_error ->
  out (email_Send rt tr e ctx n start) = Returned (errors_New ErrTimeout) ->
  calls (email_Send rt tr e ctx n start)
  = (waits (email_Send rt tr e ctx n start) + 1)%nat.
Proof.
  intros Hv. rewrite (email_Send_valid rt tr e ctx n start Hv).
  unfold exponentialBackOffRetry.
  apply (loop_calls_by_outcome rt e (sendEmail tr) n ctx).
Qed.

(** Cancellation is not looked at around a successful attempt: with the
    context cancelled before [Send] is even called, an attempt that
    succeeds makes [Send] return nil. *)
Lemma success_ignores_cancellation rt tr e ctx n start :
  email_validate e = nil_error ->
  1 <= n ->
  err (sendEmail tr 0%nat e) = None ->
  let r := email_Send rt tr e ctx n start in
  out r = Returned nil_error /\ calls r = 1%nat
  /\ finish r = start + Z.of_N (took (sendEmail tr 0%nat e)).
Proof.
  intros Hv Hn Herr r. subst r.
  rewrite (email_Send_valid rt tr e ctx n start Hv).
  unfold exponentialBackOffRetry.
  rewrite (loop_pass_success rt ctx e (sendEmail tr) n _ 1 0%nat start Hn Herr).
  repeat split.
Qed.

(** Cancellation in the first wait of the documented revision.  For every
    valid email, every maxRetries of at least 1, every transport that
    always fails and every context cancelled before the first backoff
    wait elapses (4 seconds after the first attempt returns), [Send]
    returns Timeout, not RetriesExhausted; the adapter was invoked once,
    which is one more than the zero backoff waits that completed; and
    [Send] returns at the later of the end of the attempt and the
    cancellation: a cancellation that falls before or inside the attempt
    is only seen in the wait that follows it. *)
Lemma cancelled_during_first_backoff
  (rt : Runtime) (tr : Transport) (e : email) (ctx : Context)
  (n start tc : Z) :
  email_validate e = nil_error ->
  1 <= n ->
  always_fails (sendEmail tr) e ->
  done_at ctx = Some tc ->
  tc < start + Z.of_N (took (sendEmail tr 0%nat e)) + 4 * Second ->
  let r := email_Send rt tr e ctx n start in
  out r = Returned (errors_New ErrTimeout)
  /\ out r <> Returned (errors_New ErrExhausted)
  /\ calls r = 1%nat
  /\ waits r = 0%nat
  /\ (calls r <= waits r + 1)%nat
  /\ finish r = Z.max (start + Z.of_N (took (sendEmail tr 0%nat e))) tc.
Proof.
  intros Hv Hn Hfail Hd Htc r. subst r.
  rewrite (email_Send_valid rt tr e ctx n start Hv).
  unfold exponentialBackOffRetry.
  destruct (err (sendEmail tr 0%nat e)) as [m|] eqn:Herr;
    [|now destruct (Hfail 0%nat)].
  rewrite (loop_pass_timeout rt ctx e (sendEmail tr) n _ 1 0%nat start m tc
             ltac:(lia) Hn Herr Hd) by (change (2 ^ 1) with 2; lia).
  cbn. repeat split; try lia. discriminate.
Qed.

(** ** Success ends the loop *)


(** *** Cancellation at any instant before the retries are exhausted *)

Lemma select_wait_TimerFired rt ctx k now sleep t tc :
  select_wait rt ctx k now sleep = (TimerFired, t) ->
  done_at ctx = Some tc ->
  t = now + Z.max 0 sleep /\ t <= Z.max now tc.
Proof.
  unfold select_wait. intros H Hd. rewrite Hd in H.
  destruct (Z.ltb_spec (Z.max now tc) (now + Z.max 0 sleep)); [discriminate|].
  destruct (Z.ltb_spec (now + Z.max 0 sleep) (Z.max now tc)).
  - injection H as <-. lia.
  - destruct (select_pick rt k); [|discriminate]. injection H as <-. lia.
Qed.

(** With at most 32 retries (every sleep is then positive), an attempt
    function that always fails and a context cancelled before the instant
    at which the retries would be exhausted, the run ends with the
    timeout error. *)
Lemma loop_cancelled rt ctx e fn retry tc fuel : forall i k now,
  always_fails fn e ->
  done_at ctx = Some tc ->
  1 <= i <= retry -> retry <= 32 ->
  (Z.to_nat (retry + 1 - i) < fuel)%nat ->
  tc < finish (loop rt Background e fn retry fuel i k now) ->
  out (loop rt ctx e fn retry fuel i k now) = Returned (errors_New ErrTimeout).
Proof.
  induction fuel as [|fuel IH]; intros i k now Hfail Hd Hi Hr Hf; [lia|].
  destruct (err (fn k e)) as [m|] eqn:Herr; [|now destruct (Hfail k)].
  rewrite !loop_S. destruct (Z.leb_spec i retry); [|lia].
  rewrite !(body_failure rt _ e fn i k now m Herr) by lia. cbn zeta.
  rewrite select_wait_Background, finish_log.
  rewrite (sleep_value rt i k) by lia.
  set (back := now + Z.of_N (took (fn k e))).
  set (sleep := 2 * Second * 2 ^ i + rand_src rt k mod i).
  assert (Hpos : 0 < sleep).
  { pose proof (Z.mod_pos_bound (rand_src rt k) i ltac:(lia)).
    assert (0 < 2 ^ i) by (apply Z.pow_pos_nonneg; lia).
    unfold sleep, Second. lia. }
  rewrite Z.max_r by lia. rewrite next_index by (unfold Int64.max; lia).
  destruct (select_wait rt ctx k back sleep) as [[|] t] eqn:Hs;
    [|reflexivity].
  destruct (select_wait_TimerFired rt ctx k back sleep t tc Hs Hd) as [-> Hle].
  rewrite Z.max_r in * by lia.
  intros Htc. rewrite out_log.
  destruct (Z.eq_dec i retry) as [->|Hne].
  - exfalso. destruct fuel as [|fuel]; [lia|]. rewrite loop_S in Htc.
    destruct (Z.leb_spec (retry + 1) retry); [lia|]. cbn in Htc. lia.
  - apply IH; try assumption; lia.
Qed.

(** For every valid email, every maxRetries from 1 to 32, every transport
    that always fails and every context cancelled before the instant at
    which the retries would be exhausted, [Send] returns Timeout, and the
    adapter was invoked exactly once more than backoff waits completed. *)
Lemma Send_cancelled_before_exhaustion rt tr e ctx n start tc :
  email_validate e = nil_error ->
  1 <= n <= 32 ->
  always_fails (sendEmail tr) e ->
  done_at ctx = Some tc ->
  tc < finish (email_Send rt tr e Background n start) ->
  let r := email_Send rt tr e ctx n start in
  out r = Returned (errors_New ErrTimeout)
  /\ calls r = (waits r + 1)%nat.
Proof.
  intros Hv Hn Hfail Hd Htc r. subst r.
  assert (Ho : out (email_Send rt tr e ctx n start)
               = Returned (errors_New ErrTimeout)).
  { rewrite (email_Send_valid rt tr e ctx n start Hv).
    rewrite (email_Send_valid rt tr e Background n start Hv) in Htc.
    unfold exponentialBackOffRetry in *.
    apply (loop_cancelled rt ctx e (sendEmail tr) n tc); try assumption; lia. }
  split; [exact Ho|]. apply Send_timeout_calls; assumption.
Qed.

(** ** The two revisions of the loop, side by side *)

(** The earlier revision never gets past its first pass. *)
Lemma Helper0_calls_le_1 rt ctx e fn retry start :
  (calls (Helper0.exponentialBackOffRetry rt ctx e fn retry start) <= 1)%nat.
Proof.
  destruct (Z.le_gt_cases 1 retry) as [Hr|Hr].
  - rewrite Helper0_first_pass by assumption.
    destruct (err (fn 0%nat e)); cbn; lia.
  - unfold Helper0.exponentialBackOffRetry. rewrite Helper0_loop_S.
    destruct (Z.ltb_spec 0 retry); [lia|]. cbn. lia.
Qed.

Lemma Helper0_total rt ctx e fn retry start :
  out (Helper0.exponentialBackOffRetry rt ctx e fn retry start) <> OutOfFuel.
Proof.
  destruct (Z.le_gt_cases 1 retry) as [Hr|Hr].
  - rewrite Helper0_first_pass by assumption.
    destruct (err (fn 0%nat e)); discriminate.
  - unfold Helper0.exponentialBackOffRetry. rewrite Helper0_loop_S.
    destruct (Z.ltb_spec 0 retry); [lia|]. discriminate.
Qed.

(** The first backoff of the documented revision, once the first attempt
    has failed, is 4 seconds. *)
Lemma first_backoff_documented rt ctx e fn retry start :
  1 <= retry ->
  err (fn 0%nat e) <> None ->
  hd_error (backoffs (exponentialBackOffRetry rt ctx e fn retry start))
  = Some (4 * Second).
Proof.
  intros Hr Hfail. unfold exponentialBackOffRetry. rewrite loop_S.
  destruct (Z.leb_spec 1 retry); [|lia].
  destruct (err (fn 0%nat e)) as [m|] eqn:Herr; [|contradiction].
  rewrite (body_failure rt ctx e fn 1 0%nat start m Herr) by lia. cbn zeta.
  rewrite (backoff_value rt 1) by lia.
  destruct (select_wait _ _ _ _ _) as [[|] t]; reflexivity.
Qed.

(** With no retry allowed, neither revision makes an attempt or computes
    a backoff. *)
Example variants_agree_at_0 rt ctx e fn start :
  Helper0.exponentialBackOffRetry rt ctx e fn 0 start
  = exponentialBackOffRetry rt ctx e fn 0 start.
Proof. reflexivity. Qed.

(** C7 as stated fails: with maxRetries 1, an attempt function that always
    fails and a context that is never cancelled, both revisions invoke the
    attempt function once. *)
Lemma variants_same_count_at_1 :
  ~ variants_differ Sample.runtime Background Sample.mail Sample.refused 1 0.
Proof. intros [H _]. apply H. vm_compute. reflexivity. Qed.

(** C7, as amended.  For the same maxRetries [N >= 1] (below the largest
    int) and the same attempt function that always fails, the two
    revisions of the loop differ in the first backoff they compute: 2
    seconds in the loop that counts from 0, 4 seconds in the loop that
    counts from 1.  Neither invokes the attempt function more than [N]
    times: the bounds [0 <= i < N] and [1 <= i <= N] allow the same
    number of passes. *)
Theorem variants_first_backoff_differs
  (rt : Runtime) (ctx : Context) (e : email) (fn : AttemptFn) (N start : Z) :
  1 <= N < Int64.max ->
  always_fails fn e ->
  let r0 := Helper0.exponentialBackOffRetry rt ctx e fn N start in
  let r1 := exponentialBackOffRetry rt ctx e fn N start in
  hd_error (backoffs r0) = Some (2 * Second)
  /\ hd_error (backoffs r1) = Some (4 * Second)
  /\ hd_error (backoffs r0) <> hd_error (backoffs r1)
  /\ (calls r0 <= Z.to_nat N)%nat
  /\ (calls r1 <= Z.to_nat N)%nat.
Proof.
  intros HN Hfail r0 r1.
  assert (H0 : hd_error (backoffs r0) = Some (2 * Second)).
  { subst r0. rewrite Helper0_first_pass by lia.
    destruct (err (fn 0%nat e)) as [m|] eqn:Herr; [reflexivity|].
    now destruct (Hfail 0%nat). }
  assert (H1 : hd_error (backoffs r1) = Some (4 * Second)).
  { subst r1. apply first_backoff_documented; [lia|apply Hfail]. }
  split; [exact H0|]. split; [exact H1|]. split.
  - rewrite H0, H1. discriminate.
  - split.
    + pose proof (Helper0_calls_le_1 rt ctx e fn N start). subst r0. lia.
    + subst r1. unfold exponentialBackOffRetry.
      pose proof (loop_calls_le rt e fn N ctx (S (Z.to_nat N)) 1 0%nat start
                    ltac:(lia) ltac:(lia)) as H.
      replace (N + 1 - 1) with N in H by lia. exact H.
Qed.

Lemma variants_first_backoff_differs_witness :
  hd_error (backoffs (Helper0.exponentialBackOffRetry Sample.runtime
                        Sample.in_50s Sample.mail Sample.refused 3 0))
  = Some (2 * Second)
  /\ hd_error (backoffs (exponentialBackOffRetry Sample.runtime
                           Sample.in_50s Sample.mail Sample.refused 3 0))
     = Some (4 * Second).
Proof.
  destruct (variants_first_backoff_differs Sample.runtime Sample.in_50s
              Sample.mail Sample.refused 3 0) as (H0 & H1 & _).
  - unfold Int64.max. lia.
  - intros k. discriminate.
  - split; [exact H0|exact H1].
Defined.

(** ** The largest int as retry count *)

(** The bound [N < Int64.max] of the retry-count property cannot be
    dropped: with [retry] the largest int, the post statement [i++] of the
    pass at index [retry] wraps to the smallest int, the condition
    [i <= retry] holds again, and the pass that follows faults in its
    draw, one invocation after the [retry]-th. *)
Lemma loop_wraps_at_max rt e fn fuel : forall i k now,
  always_fails fn e ->
  1 <= i <= Int64.max ->
  (Z.to_nat (Int64.max + 1 - i) < fuel)%nat ->
  let r := loop rt Background e fn Int64.max fuel i k now in
  out r = Panicked "invalid argument to Int63n"
  /\ calls r = Z.to_nat (Int64.max + 2 - i).
Proof.
  induction fuel as [|fuel IH]; intros i k now Hfail Hi Hf; [lia|].
  cbn zeta. rewrite loop_S. destruct (Z.leb_spec i Int64.max); [|lia].
  destruct (err (fn k e)) as [m|] eqn:Herr; [|now destruct (Hfail k)].
  rewrite (body_failure rt Background e fn i k now m Herr) by lia.
  cbn zeta. rewrite select_wait_Background, out_log, calls_log.
  cbn [filter is_call List.length app].
  destruct (Z.eq_dec i Int64.max) as [->|Hne].
  - rewrite wrap64_overflow_add.
    destruct fuel as [|fuel]; [lia|]. rewrite loop_S.
    destruct (Z.leb_spec Int64.min Int64.max) as [_|Hlt];
      [|unfold Int64.min, Int64.max in Hlt; lia].
    destruct (err (fn (S k) e)) as [m'|] eqn:Herr';
      [|now destruct (Hfail (S k))].
    rewrite (body_faults rt Background e fn Int64.min (S k) _ m' Herr')
      by (unfold Int64.min; lia).
    split; [reflexivity|].
    rewrite calls_log. cbn [filter is_call List.length calls stop trace].
    replace (Int64.max + 2 - Int64.max) with 2 by lia. reflexivity.
  - rewrite next_index by lia.
    destruct (IH (i + 1) (S k)
                (now + Z.of_N (took (fn k e))
                 + Z.max 0 (Int64.add (Int64.mul delay (pow2_duration rt i))
                                      (rand_src rt k mod i)))
                Hfail ltac:(lia) ltac:(lia)) as (Ho & Hc).
    rewrite Ho, Hc. split; [reflexivity|]. lia.
Qed.

Lemma exponentialBackOffRetry_faults_at_max rt e fn start :
  always_fails fn e ->
  let r := exponentialBackOffRetry rt Background e fn Int64.max start in
  out r = Panicked "invalid argument to Int63n"
  /\ calls r = S (Z.to_nat Int64.max).
Proof.
  intros Hfail r. subst r. unfold exponentialBackOffRetry.
  destruct (loop_wraps_at_max rt e fn (S (Z.to_nat Int64.max)) 1 0%nat start
              Hfail) as (Ho & Hc).
  - unfold Int64.max. lia.
  - replace (Int64.max + 1 - 1) with Int64.max by lia. lia.
  - split; [exact Ho|]. rewrite Hc. unfold Int64.max. lia.
Qed.

(** ** The lemmas above on the sample inputs *)

Lemma jitter_well_defined_witness :
  out (exponentialBackOffRetry Sample.runtime Background Sample.mail
         Sample.refused 3 0) <> Panicked "invalid argument to Int63n".
Proof.
  destruct (jitter_well_defined Sample.runtime Background Sample.mail
              Sample.refused 3 0) as (Hp & _).
  - unfold Int64.max. lia.
  - apply Hp.
Defined.

Lemma Send_cancelled_before_exhaustion_witness :
  let ctx := {| done_at := Some (5 * Second) |} in
  let r := email_Send Sample.runtime Sample.dead_transport Sample.mail ctx 3 0 in
  out r = Returned (errors_New ErrTimeout) /\ calls r = (waits r + 1)%nat.
Proof.
  apply (Send_cancelled_before_exhaustion Sample.runtime Sample.dead_transport
           Sample.mail {| done_at := Some (5 * Second) |} 3 0 (5 * Second)).
  - reflexivity.
  - lia.
  - intros k. discriminate.
  - reflexivity.
  - vm_compute. reflexivity.
Defined.

Lemma success_ignores_cancellation_witness :
  out (email_Send Sample.runtime (Sample.transport 0) Sample.mail
         Sample.cancelled 1 0) = Returned nil_error.
Proof.
  apply (success_ignores_cancellation Sample.runtime (Sample.transport 0)
           Sample.mail Sample.cancelled 1 0).
  - reflexivity.
  - lia.
  - reflexivity.
Defined.

(** * Further properties of the code *)

(** ** [email.validate] *)

(** The guard [s != ""] of each length check is implied by the check. *)
Lemma too_long_spec (s : string) :
  too_long s = (500 <? Z.of_nat (String.length s)).
Proof. destruct s; reflexivity. Qed.

Lemma email_validate_spec (e : email) :
  email_validate e
  = if is_empty (content e) then errors_New ErrContentMissing
    else first_too_long (bounded_fields e).
Proof.
  unfold email_validate, bounded_fields. rewrite !too_long_spec.
  cbn [first_too_long]. reflexivity.
Qed.

Lemma first_too_long_nil (fields : list (string * string)) :
  first_too_long fields = nil_error
  <-> Forall (fun p => (String.length (fst p) <= 500)%nat) fields.
Proof.
  induction fields as [|[v m] rest IH]; cbn [first_too_long].
  - split; [constructor|reflexivity].
  - destruct (Z.ltb_spec 500 (Z.of_nat (String.length v))) as [H|H].
    + split; [discriminate|]. intros HF. inversion HF; subst. cbn in *. lia.
    + rewrite IH. split.
      * intros HF. constructor; [cbn; lia|exact HF].
      * intros HF. now inversion HF.
Qed.

(** [validate] accepts an email exactly when its content is not empty and
    none of subject, tags, sender, sender name and return address is
    longer than 500 bytes.  Recipients, content type, images, attachments
    and the length of the content play no part. *)
Theorem validate_accepts_iff (e : email) :
  email_validate e = nil_error
  <-> content e <> ""
      /\ (String.length (subject e) <= 500)%nat
      /\ (String.length (tags e) <= 500)%nat
      /\ (String.length (sender_ e) <= 500)%nat
      /\ (String.length (senderName e) <= 500)%nat
      /\ (String.length (returnEmail e) <= 500)%nat.
Proof.
  rewrite email_validate_spec.
  destruct (is_empty (content e)) eqn:Hc.
  - apply is_empty_true in Hc. split; [discriminate|]. intros [H _]. contradiction.
  - apply is_empty_false in Hc. rewrite first_too_long_nil. unfold bounded_fields.
    split.
    + intros HF. split; [exact Hc|].
      repeat match goal with
             | H : Forall _ (_ :: _) |- _ => inversion H; clear H; subst
             end.
      cbn [fst] in *. repeat split; assumption.
    + intros (_ & H1 & H2 & H3 & H4 & H5).
      repeat (apply Forall_cons; [cbn [fst]; assumption|]). apply Forall_nil.
Qed.

(** [validate] reports one error, the one of the first check that fails:
    an empty content before anything else, then the first over-long field
    in the order subject, tags, sender, sender name, return address. *)
Theorem validate_reports_first_failure (e : email) :
  (content e = "" -> email_validate e = errors_New ErrContentMissing)
  /\ (content e <> "" ->
      email_validate e = first_too_long (bounded_fields e)).
Proof.
  rewrite email_validate_spec. split; intros H.
  - now rewrite (proj2 (is_empty_true _) H).
  - now rewrite (proj2 (is_empty_false _) H).
Qed.

(** The bound is inclusive: a subject of 500 bytes passes, one of 501 is
    refused, and an over-long subject hides over-long tags. *)
Example validate_at_the_bound :
  let s500 := string_of_list_ascii (repeat "a"%char 500) in
  let s501 := string_of_list_ascii (repeat "a"%char 501) in
  email_validate (SetSubject Sample.mail s500) = nil_error
  /\ email_validate (SetSubject Sample.mail s501) = Some "subject too long"
  /\ email_validate (SetTags (SetSubject Sample.mail s501) s501)
     = Some "subject too long"
  /\ email_validate (SetTags Sample.mail s501) = Some "tags too long".
Proof. vm_compute. repeat split. Qed.

(** ** The message builder: headers and body *)

Lemma parts_fold_Embed (l : list string) (gm : Message) :
  parts (fold_left Embed l gm) = parts gm.
Proof.
  revert gm. induction l as [|v l IH]; intros gm; simpl; [reflexivity|].
  now rewrite IH.
Qed.

Lemma parts_set_recipients fmt gm field l :
  parts (set_recipients fmt gm field l) = parts gm.
Proof. unfold set_recipients. now destruct (0 <? _). Qed.

Lemma getMessage_parts fmt e :
  parts (getMessage fmt e)
  = match mime_of (contentType e) with
    | Some m => [(m, content e)]
    | None => []
    end.
Proof.
  unfold getMessage, mime_of.
  destruct (0 <? Z.of_nat (List.length (imagesToEmbed e)));
    rewrite ?parts_fold_Embed; cbn [parts SetHeader];
    rewrite !parts_set_recipients;
    split_eqb; reflexivity.
Qed.

Lemma Gomail0_getMessage_parts fmt e :
  parts (Gomail0.getMessage fmt e)
  = if String.eqb (contentType e) ContentHTML
    then [("text/html", content e)] else [].
Proof.
  unfold Gomail0.getMessage.
  destruct (0 <? Z.of_nat (List.length (imagesToEmbed e)));
    rewrite ?parts_fold_Embed; cbn [parts SetHeader];
    rewrite !parts_set_recipients;
    split_eqb; reflexivity.
Qed.

(** *** The header map *)

Lemma get_set_field f vs h g :
  get_field g (set_field f vs h)
  = if String.eqb f g then Some vs else get_field g h.
Proof.
  induction h as [|[k ws] h IH]; cbn [set_field get_field].
  - reflexivity.
  - destruct (String.eqb_spec k f) as [->|Hkf]; cbn [get_field].
    + destruct (String.eqb f g); reflexivity.
    + rewrite IH. destruct (String.eqb_spec k g) as [->|Hkg]; [|reflexivity].
      now rewrite (proj2 (String.eqb_neq f g)) by congruence.
Qed.

Lemma GetHeader_SetHeader m f vs g :
  GetHeader (SetHeader m f vs) g
  = if String.eqb f g then Some (map Encoded vs) else GetHeader m g.
Proof. unfold GetHeader, SetHeader. cbn [header]. apply get_set_field. Qed.

Lemma GetHeader_fold_Embed l gm g :
  GetHeader (fold_left Embed l gm) g = GetHeader gm g.
Proof.
  revert gm. induction l as [|v l IH]; intros gm; simpl; [reflexivity|].
  now rewrite IH.
Qed.

Lemma GetHeader_set_recipients fmt gm field l g :
  GetHeader (set_recipients fmt gm field l) g
  = match recipient_values fmt l with
    | Some vs => if String.eqb field g then Some vs else GetHeader gm g
    | None => GetHeader gm g
    end.
Proof.
  unfold set_recipients. destruct l as [|v l]; [reflexivity|].
  cbn [List.length]. replace (0 <? Z.of_nat (S (List.length l))) with true
    by (symmetry; apply Z.ltb_lt; lia).
  rewrite GetHeader_SetHeader, map_map. reflexivity.
Qed.

(** The recipient part of the header: what a field holds once the three
    recipient blocks of [getMessage] have run on a message without
    header. *)
Lemma GetHeader_recipients fmt gm vto vcc vbcc g :
  header gm = [] ->
  GetHeader
    (set_recipients fmt
       (set_recipients fmt (set_recipients fmt gm "To" vto) "Cc" vcc)
       "Bcc" vbcc) g
  = if String.eqb "Bcc" g then recipient_values fmt vbcc
    else if String.eqb "Cc" g then recipient_values fmt vcc
    else if String.eqb "To" g then recipient_values fmt vto
    else None.
Proof.
  intros Hgm. rewrite !GetHeader_set_recipients.
  replace (GetHeader gm g) with (@None (list header_value))
    by (unfold GetHeader; now rewrite Hgm).
  destruct (recipient_values fmt vbcc), (recipient_values fmt vcc),
    (recipient_values fmt vto);
    destruct (String.eqb_spec "Bcc" g), (String.eqb_spec "Cc" g),
      (String.eqb_spec "To" g);
    try reflexivity; congruence.
Qed.

Lemma getMessage_GetHeader fmt e g :
  GetHeader (getMessage fmt e) g
  = if String.eqb "Return-Path" g then Some [Encoded (returnEmail e)]
    else if String.eqb "X-SES-MESSAGE-TAGS" g then Some [Encoded (tags e)]
    else if String.eqb "From" g
         then Some [Encoded (fmt (sender_ e) (senderName e))]
    else if String.eqb "Subject" g then Some [Encoded (subject e)]
    else if String.eqb "Bcc" g then recipient_values fmt (bcc e)
    else if String.eqb "Cc" g then recipient_values fmt (cc e)
    else if String.eqb "To" g then recipient_values fmt (to e)
    else None.
Proof.
  unfold getMessage.
  destruct (0 <? Z.of_nat (List.length (imagesToEmbed e)));
    rewrite ?GetHeader_fold_Embed, !GetHeader_SetHeader;
    cbn [map]; rewrite GetHeader_recipients by (split_eqb; reflexivity);
    reflexivity.
Qed.

(** The header of the message built from any email.  The fields To, Cc and
    Bcc are set exactly for the recipient lists that are not empty, and
    hold the encoded formatted addresses of the list, in its order;
    Subject, From, the tagging field and Return-Path are always set, also
    when their values are empty, to the encoded subject, formatted sender,
    tags and return address; and no other field is set. *)
Theorem getMessage_header_fields (fmt : string -> string -> string)
  (e : email) :
  let gm := getMessage fmt e in
  GetHeader gm "To" = recipient_values fmt (to e)
  /\ GetHeader gm "Cc" = recipient_values fmt (cc e)
  /\ GetHeader gm "Bcc" = recipient_values fmt (bcc e)
  /\ GetHeader gm "Subject" = Some [Encoded (subject e)]
  /\ GetHeader gm "From" = Some [Encoded (fmt (sender_ e) (senderName e))]
  /\ GetHeader gm "X-SES-MESSAGE-TAGS" = Some [Encoded (tags e)]
  /\ GetHeader gm "Return-Path" = Some [Encoded (returnEmail e)]
  /\ (forall field, ~ In field header_fields -> GetHeader gm field = None).
Proof.
  intros gm. subst gm.
  repeat split; try (rewrite getMessage_GetHeader; reflexivity).
  intros field Hf. rewrite getMessage_GetHeader.
  unfold header_fields in Hf. cbn [In] in Hf.
  repeat match goal with
         | |- context [String.eqb ?a field] =>
             destruct (String.eqb_spec a field); [exfalso; tauto|]
         end.
  reflexivity.
Qed.

(** ** [SetContent] *)

Lemma same_but_content_refl e : same_but_content e e.
Proof. unfold same_but_content. repeat split. Qed.

Lemma SetContent_frame (Data : Type)
  (pt : string -> Data -> string * error) (e : email) (c : Content Data) :
  same_but_content e (fst (SetContent pt e c)).
Proof.
  unfold SetContent.
  destruct (String.eqb (Type_ c) ContentHTML).
  - destruct (is_empty (Content_ c)); cbn [negb].
    + destruct (is_empty (TemplatePath c)); cbn [negb].
      * unfold same_but_content. repeat split.
      * destruct (pt (TemplatePath c) (Data_ c)) as [s [m|]];
          unfold same_but_content; repeat split.
    + unfold same_but_content. repeat split.
  - destruct (String.eqb (Type_ c) ContentText);
      unfold same_but_content; repeat split.
Qed.

(** [SetContent] returns an error exactly when the type is html, no
    literal content is given, and the template path is empty or the
    renderer fails.  The call has then already set [contentType] to html,
    while [content] is as it was; and in every case the call leaves all
    fields but these two alone. *)
Theorem SetContent_fails_iff (Data : Type)
  (pt : string -> Data -> string * error) (e : email) (c : Content Data) :
  (snd (SetContent pt e c) <> nil_error
   <-> Type_ c = ContentHTML /\ Content_ c = ""
       /\ (TemplatePath c = ""
           \/ snd (pt (TemplatePath c) (Data_ c)) <> nil_error))
  /\ (snd (SetContent pt e c) <> nil_error ->
      content (fst (SetContent pt e c)) = content e
      /\ contentType (fst (SetContent pt e c)) = ContentHTML)
  /\ same_but_content e (fst (SetContent pt e c)).
Proof.
  split; [|split; [|apply SetContent_frame]].
  - unfold SetContent.
    destruct (String.eqb_spec (Type_ c) ContentHTML) as [Hh|Hh].
    + destruct (is_empty (Content_ c)) eqn:Hc; cbn [negb].
      * apply is_empty_true in Hc.
        destruct (is_empty (TemplatePath c)) eqn:Hp; cbn [negb].
        -- apply is_empty_true in Hp. cbn. split; [|discriminate].
           intros _. repeat split; try assumption. now left.
        -- apply is_empty_false in Hp.
           destruct (pt (TemplatePath c) (Data_ c)) as [s [m|]]; cbn.
           ++ split; [|discriminate]. intros _.
              repeat split; try assumption. right. discriminate.
           ++ split; [intros H; now destruct H|].
              intros (_ & _ & [H|H]); [contradiction|now destruct H].
      * apply is_empty_false in Hc. cbn. split; [intros H; now destruct H|].
        intros (_ & H & _). contradiction.
    + destruct (String.eqb (Type_ c) ContentText); cbn;
        (split; [intros H; now destruct H|]); intros (H & _); contradiction.
  - unfold SetContent.
    destruct (String.eqb_spec (Type_ c) ContentHTML) as [Hh|Hh].
    + destruct (is_empty (Content_ c)); cbn [negb].
      * destruct (is_empty (TemplatePath c)); cbn [negb].
        -- intros _. split; [reflexivity|exact Hh].
        -- destruct (pt (TemplatePath c) (Data_ c)) as [s [m|]]; cbn.
           ++ intros _. split; [reflexivity|exact Hh].
           ++ intros H; now destruct H.
      * cbn. intros H; now destruct H.
    + destruct (String.eqb (Type_ c) ContentText); cbn; intros H; now destruct H.
Qed.

(** The content a successful html or text [SetContent] stores. *)
Lemma SetContent_stored (Data : Type)
  (pt : string -> Data -> string * error) (e : email) (c : Content Data)
  (m : string) :
  snd (SetContent pt e c) = nil_error ->
  mime_of (Type_ c) = Some m ->
  contentType (fst (SetContent pt e c)) = Type_ c
  /\ content (fst (SetContent pt e c))
     = (if String.eqb (Type_ c) ContentText || negb (is_empty (Content_ c))
        then Content_ c
        else fst (pt (TemplatePath c) (Data_ c))).
Proof.
  unfold SetContent, mime_of.
  destruct (String.eqb_spec (Type_ c) ContentHTML) as [Hh|Hh].
  - replace (String.eqb (Type_ c) ContentText) with false
      by (rewrite Hh; reflexivity).
    cbn [orb].
    destruct (is_empty (Content_ c)); cbn [negb].
    + destruct (is_empty (TemplatePath c)); cbn [negb]; [discriminate|].
      destruct (pt (TemplatePath c) (Data_ c)) as [s [m'|]]; [discriminate|].
      intros _ _. split; reflexivity.
    + intros _ _. split; reflexivity.
  - destruct (String.eqb (Type_ c) ContentText); [|discriminate].
    intros _ _. split; reflexivity.
Qed.

(** After a [SetContent] of type html or text that returned nil, the
    message built from the entity has exactly one body part: the MIME type
    of the content type, with the content stored, which is the literal
    content for text and for html with a literal, and the rendered
    template for html without one. *)
Theorem SetContent_then_getMessage (Data : Type)
  (pt : string -> Data -> string * error)
  (fmt : string -> string -> string) (e : email) (c : Content Data)
  (m : string) :
  snd (SetContent pt e c) = nil_error ->
  mime_of (Type_ c) = Some m ->
  let body :=
    if String.eqb (Type_ c) ContentText || negb (is_empty (Content_ c))
    then Content_ c
    else fst (pt (TemplatePath c) (Data_ c)) in
  parts (getMessage fmt (fst (SetContent pt e c))) = [(m, body)].
Proof.
  intros Hok Hm body. subst body.
  destruct (SetContent_stored Data pt e c m Hok Hm) as [Ht Hc].
  rewrite getMessage_parts, Ht, Hm, Hc. reflexivity.
Qed.

Lemma SetContent_then_getMessage_witness :
  parts (getMessage (fun a _ => a)
           (fst (SetContent (processTemplate Sample.engine) Sample.mail
                   {| Type_ := ContentHTML; Content_ := "";
                      TemplatePath := "hello.html"; Data_ := "you" |})))
  = [("text/html", "<p>you</p>")].
Proof.
  apply (SetContent_then_getMessage string (processTemplate Sample.engine)
           (fun a _ => a) Sample.mail
           {| Type_ := ContentHTML; Content_ := "";
              TemplatePath := "hello.html"; Data_ := "you" |} "text/html").
  - reflexivity.
  - reflexivity.
Defined.

(** With html, no literal content and a template path, [SetContent]
    stores exactly the text the engine wrote when parsing and executing
    both succeed; when either fails it returns that error and leaves the
    content as it was: the text a failed execution had already written is
    dropped. *)
Theorem SetContent_renders_template (Data : Type)
  (eng : TemplateEngine Data) (e : email) (c : Content Data) :
  Type_ c = ContentHTML ->
  Content_ c = "" ->
  TemplatePath c <> "" ->
  SetContent (processTemplate eng) e c
  = match ParseFiles eng (TemplatePath c) with
    | inr m => (set_contentType e ContentHTML, Some m)
    | inl t =>
        match Execute eng t (Data_ c) with
        | (_, Some m) => (set_contentType e ContentHTML, Some m)
        | (buf, None) =>
            (set_content (set_contentType e ContentHTML) buf, nil_error)
        end
    end.
Proof.
  intros Hh Hc Hp. unfold SetContent, processTemplate.
  rewrite Hh, Hc. cbn [String.eqb is_empty negb].
  replace (String.eqb ContentHTML ContentHTML) with true by reflexivity.
  replace (is_empty "") with true by reflexivity. cbn [negb].
  rewrite (proj2 (is_empty_false _) Hp). cbn [negb].
  destruct (ParseFiles eng (TemplatePath c)) as [t|m]; [|reflexivity].
  destruct (Execute eng t (Data_ c)) as [buf [m|]]; reflexivity.
Qed.

Lemma SetContent_renders_template_witness :
  SetContent (processTemplate Sample.engine) Sample.mail
    {| Type_ := ContentHTML; Content_ := ""; TemplatePath := "missing.html";
       Data_ := "you" |}
  = (set_contentType Sample.mail ContentHTML, Some "no such file").
Proof.
  apply (SetContent_renders_template string Sample.engine Sample.mail
           {| Type_ := ContentHTML; Content_ := "";
              TemplatePath := "missing.html"; Data_ := "you" |}).
  - reflexivity.
  - reflexivity.
  - discriminate.
Defined.

(** A text [SetContent] with an empty literal returns nil, on any entity,
    and empties the content: the [Send] that follows fails with the
    empty-content error and makes no attempt. *)
Theorem SetContent_empty_text (Data : Type)
  (pt : string -> Data -> string * error) (e : email) (c : Content Data) :
  Type_ c = ContentText ->
  Content_ c = "" ->
  snd (SetContent pt e c) = nil_error
  /\ content (fst (SetContent pt e c)) = ""
  /\ (forall rt tr ctx n start,
        let r := email_Send rt tr (fst (SetContent pt e c)) ctx n start in
        out r = Returned (errors_New ErrContentMissing) /\ calls r = 0%nat).
Proof.
  intros Ht Hc.
  assert (E : SetContent pt e c
              = (set_content (set_contentType e ContentText) "", nil_error)).
  { unfold SetContent. rewrite Ht, Hc. reflexivity. }
  rewrite E. cbn [fst snd]. split; [reflexivity|]. split; [reflexivity|].
  intros rt tr ctx n start. apply empty_content_effect. reflexivity.
Qed.

Lemma SetContent_empty_text_witness :
  content (fst (SetContent (fun (_ : string) (_ : unit) => ("", nil_error))
                  Sample.mail
                  {| Type_ := ContentText; Content_ := "";
                     TemplatePath := ""; Data_ := tt |})) = "".
Proof.
  apply (SetContent_empty_text unit
           (fun (_ : string) (_ : unit) => ("", nil_error)) Sample.mail
           {| Type_ := ContentText; Content_ := ""; TemplatePath := "";
              Data_ := tt |}).
  - reflexivity.
  - reflexivity.
Defined.

(** On an entity that passes validation, a [SetContent] whose type is
    neither html nor text returns nil and the entity still passes
    validation, but the message built from it has no body part: the
    content type is now one the builder does not know. *)
Theorem SetContent_unknown_type_drops_body (Data : Type)
  (pt : string -> Data -> string * error)
  (fmt : string -> string -> string) (e : email) (c : Content Data) :
  email_validate e = nil_error ->
  Type_ c <> ContentHTML ->
  Type_ c <> ContentText ->
  snd (SetContent pt e c) = nil_error
  /\ email_validate (fst (SetContent pt e c)) = nil_error
  /\ parts (getMessage fmt (fst (SetContent pt e c))) = [].
Proof.
  intros Hv Hh Ht.
  assert (E : SetContent pt e c = (set_contentType e (Type_ c), nil_error)).
  { unfold SetContent.
    rewrite (proj2 (String.eqb_neq _ _) Hh), (proj2 (String.eqb_neq _ _) Ht).
    reflexivity. }
  rewrite E. cbn [fst snd]. split; [reflexivity|]. split; [exact Hv|].
  rewrite getMessage_parts. unfold mime_of. cbn [contentType set_contentType].
  rewrite (proj2 (String.eqb_neq _ _) Hh), (proj2 (String.eqb_neq _ _) Ht).
  reflexivity.
Qed.

Lemma SetContent_unknown_type_drops_body_witness :
  parts (getMessage (fun a _ => a)
           (fst (SetContent (fun (_ : string) (_ : unit) => ("", nil_error))
                   Sample.mail
                   {| Type_ := "markdown"; Content_ := "# hello";
                      TemplatePath := ""; Data_ := tt |}))) = [].
Proof.
  apply (SetContent_unknown_type_drops_body unit
           (fun (_ : string) (_ : unit) => ("", nil_error)) (fun a _ => a)
           Sample.mail
           {| Type_ := "markdown"; Content_ := "# hello"; TemplatePath := "";
              Data_ := tt |}).
  - reflexivity.
  - discriminate.
  - discriminate.
Defined.

(** *** The earlier revision of [SetContent] *)

(** In the earlier revision a text [SetContent] stores the content but
    not the content type: on a fresh entity the call returns nil and the
    entity passes validation, yet the message either builder makes of it
    has no body part. *)
Theorem Goemail0_text_has_no_body (Data : Type)
  (pt : string -> Data -> string * error)
  (fmt : string -> string -> string) (d : Dialer) (c : Content Data) :
  Type_ c = ContentText ->
  Content_ c <> "" ->
  let e' := fst (Goemail0.SetContent pt (email_zero d) c) in
  snd (Goemail0.SetContent pt (email_zero d) c) = nil_error
  /\ content e' = Content_ c
  /\ contentType e' = ""
  /\ email_validate e' = nil_error
  /\ parts (getMessage fmt e') = []
  /\ parts (Gomail0.getMessage fmt e') = [].
Proof.
  intros Ht Hc e'. subst e'.
  assert (E : Goemail0.SetContent pt (email_zero d) c
              = (set_content (email_zero d) (Content_ c), nil_error)).
  { unfold Goemail0.SetContent. rewrite Ht. reflexivity. }
  rewrite E. cbn [fst snd].
  split; [reflexivity|]. split; [reflexivity|]. split; [reflexivity|].
  split; [|split].
  - rewrite email_validate_spec. cbn [content set_content].
    rewrite (proj2 (is_empty_false _) Hc). reflexivity.
  - rewrite getMessage_parts. reflexivity.
  - rewrite Gomail0_getMessage_parts. reflexivity.
Qed.

Lemma Goemail0_text_has_no_body_witness :
  parts (getMessage (fun a _ => a)
           (fst (Goemail0.SetContent
                   (fun (_ : string) (_ : unit) => ("", nil_error))
                   (email_zero Sample.the_dialer)
                   {| Type_ := ContentText; Content_ := "This is test email.";
                      TemplatePath := ""; Data_ := tt |}))) = [].
Proof.
  apply (Goemail0_text_has_no_body unit
           (fun (_ : string) (_ : unit) => ("", nil_error)) (fun a _ => a)
           Sample.the_dialer
           {| Type_ := ContentText; Content_ := "This is test email.";
              TemplatePath := ""; Data_ := tt |}).
  - reflexivity.
  - discriminate.
Defined.

(** In the earlier revision an html [SetContent] never reads the literal
    content: two contents that differ in it alone give the same result. *)
Lemma Goemail0_html_ignores_literal (Data : Type)
  (pt : string -> Data -> string * error) (e : email) (c : Content Data)
  (literal : string) :
  Type_ c = ContentHTML ->
  Goemail0.SetContent pt e c
  = Goemail0.SetContent pt e
      {| Type_ := Type_ c; Content_ := literal;
         TemplatePath := TemplatePath c; Data_ := Data_ c |}.
Proof. intros Hh. unfold Goemail0.SetContent. cbn. now rewrite Hh. Qed.

(** ** [New], then [Send] *)

(** Whatever the connection details, [New] gives an entity whose dialer
    holds them and whose other fields are empty, so that a [Send] right
    after [New] fails with the empty-content error without an attempt. *)
Theorem New_then_Send_needs_content (g : option Dialer)
  (c : ConnectionDetails) (rt : Runtime) (tr : Transport) (ctx : Context)
  (n start : Z) :
  exists e,
    snd (New g c) = (Some e, nil_error)
    /\ Host (dialer e) = SmtpHost c /\ Port (dialer e) = SmtpPort c
    /\ Username (dialer e) = SmtpUser c /\ Password (dialer e) = SmtpPassword c
    /\ out (email_Send rt tr e ctx n start)
       = Returned (errors_New ErrContentMissing)
    /\ calls (email_Send rt tr e ctx n start) = 0%nat.
Proof.
  exists (email_zero (NewDialer (SmtpHost c) (SmtpPort c) (SmtpUser c)
                        (SmtpPassword c))).
  rewrite New_never_fails. cbn [snd].
  repeat (split; [reflexivity|]).
  apply empty_content_effect. reflexivity.
Qed.

(** ** [Send] and the retry loop, documented revision: every run *)

(** With [retry] below the largest int a run ends in one of three ways. *)
Lemma loop_outcomes rt ctx e fn retry fuel : forall i k now,
  1 <= i -> retry < Int64.max ->
  (Z.to_nat (retry + 1 - i) < fuel)%nat ->
  let r := loop rt ctx e fn retry fuel i k now in
  out r = Returned nil_error
  \/ out r = Returned (errors_New ErrTimeout)
  \/ out r = Returned (errors_New ErrExhausted).
Proof.
  induction fuel as [|fuel IH]; intros i k now Hi Hr Hf; [lia|].
  cbn zeta. rewrite loop_S. destruct (Z.leb_spec i retry) as [Hg|Hg].
  - destruct (body rt ctx e fn i k now) as [r|now' evs] eqn:Hbody.
    + destruct (body_Exit_out rt ctx e fn i k now r Hbody) as [H|[H|H]].
      * now left.
      * exfalso. apply (body_no_fault rt ctx e fn i k now r _ ltac:(lia) Hbody H).
      * right; now left.
    + rewrite out_log, next_index by lia. apply IH; lia.
  - right; now right.
Qed.

(** A run that returns nil made its last invocation the first one that
    succeeded, and waited once after each of the others. *)
Lemma loop_nil_inv rt ctx e fn retry fuel : forall i k now,
  out (loop rt ctx e fn retry fuel i k now) = Returned nil_error ->
  exists d,
    calls (loop rt ctx e fn retry fuel i k now) = S d
    /\ waits (loop rt ctx e fn retry fuel i k now) = d
    /\ (forall j, (j < d)%nat -> err (fn (k + j)%nat e) <> None)
    /\ err (fn (k + d)%nat e) = None.
Proof.
  induction fuel as [|fuel IH]; intros i k now; [discriminate|].
  rewrite loop_S. destruct (Z.leb_spec i retry) as [Hg|Hg]; [|discriminate].
  destruct (err (fn k e)) as [m|] eqn:Herr.
  - destruct (body rt ctx e fn i k now) as [r|now' evs] eqn:Hbody.
    + apply body_Exit in Hbody. destruct Hbody as (_ & _ & _ & _ & _ & Hn).
      intros Ho. apply Hn in Ho. congruence.
    + apply body_Next in Hbody. destruct Hbody as (_ & _ & m' & _ & ->).
      rewrite out_log, calls_log, waits_log.
      cbn [filter is_call is_retry List.length].
      intros Ho. destruct (IH _ _ _ Ho) as (d & Hc & Hw & Hbefore & Hlast).
      exists (S d). rewrite Hc, Hw. split; [reflexivity|]. split; [reflexivity|].
      split.
      * intros [|j] Hj.
        -- rewrite Nat.add_0_r, Herr. discriminate.
        -- rewrite <- Nat.add_succ_comm. apply Hbefore. lia.
      * now rewrite <- Nat.add_succ_comm.
  - rewrite (body_success rt ctx e fn i k now Herr). intros _. exists 0%nat.
    rewrite Nat.add_0_r. repeat split; try assumption. intros j Hj. lia.
Qed.

(** In a run that does not return nil every invocation failed. *)
Lemma loop_not_nil rt ctx e fn retry fuel : forall i k now,
  out (loop rt ctx e fn retry fuel i k now) <> Returned nil_error ->
  forall j, (j < calls (loop rt ctx e fn retry fuel i k now))%nat ->
            err (fn (k + j)%nat e) <> None.
Proof.
  induction fuel as [|fuel IH]; intros i k now; [cbn; intros _ j Hj; lia|].
  rewrite loop_S. destruct (Z.leb_spec i retry) as [Hg|Hg];
    [|cbn; intros _ j Hj; lia].
  destruct (err (fn k e)) as [m|] eqn:Herr.
  - destruct (body rt ctx e fn i k now) as [r|now' evs] eqn:Hbody.
    + apply body_Exit in Hbody. destruct Hbody as (_ & Hc & _).
      rewrite Hc. intros _ j Hj. replace j with 0%nat by lia.
      rewrite Nat.add_0_r, Herr. discriminate.
    + apply body_Next in Hbody. destruct Hbody as (_ & _ & m' & _ & ->).
      rewrite out_log, calls_log. cbn [filter is_call List.length].
      intros Ho [|j] Hj.
      * rewrite Nat.add_0_r, Herr. discriminate.
      * rewrite <- Nat.add_succ_comm. apply (IH _ _ _ Ho). lia.
  - rewrite (body_success rt ctx e fn i k now Herr). intros H. now destruct H.
Qed.

(** Under a context that is never cancelled, a first success at the
    [d]-th invocation from here, within the retries left, ends the run
    with nil there. *)
Lemma loop_first_success rt e fn retry : forall d fuel i k now,
  (forall j, (j < d)%nat -> err (fn (k + j)%nat e) <> None) ->
  err (fn (k + d)%nat e) = None ->
  1 <= i -> i + Z.of_nat d <= retry -> retry <= Int64.max ->
  (d < fuel)%nat ->
  let r := loop rt Background e fn retry fuel i k now in
  out r = Returned nil_error /\ calls r = S d /\ waits r = d.
Proof.
  induction d as [|d IH]; intros fuel i k now Hbefore Hlast Hi Hd Hr Hf;
    (destruct fuel as [|fuel]; [lia|]); cbn zeta; rewrite loop_S;
    (destruct (Z.leb_spec i retry); [|lia]).
  - rewrite Nat.add_0_r in Hlast.
    rewrite (body_success rt Background e fn i k now Hlast).
    repeat split.
  - destruct (err (fn k e)) as [m|] eqn:Herr.
    2:{ exfalso. apply (Hbefore 0%nat ltac:(lia)). now rewrite Nat.add_0_r. }
    rewrite (body_failure rt Background e fn i k now m Herr) by lia.
    cbn zeta. rewrite select_wait_Background.
    rewrite out_log, calls_log, waits_log, next_index by lia.
    cbn [filter is_call is_retry List.length app].
    destruct (IH fuel (i + 1) (S k)
                (now + Z.of_N (took (fn k e))
                 + Z.max 0 (Int64.add (Int64.mul delay (pow2_duration rt i))
                                      (rand_src rt k mod i))))
      as (Ho & Hc & Hw); try lia.
    + intros j Hj. rewrite Nat.add_succ_comm. apply Hbefore. lia.
    + now rewrite Nat.add_succ_comm.
    + rewrite Ho, Hc, Hw. repeat split.
Qed.

Lemma select_wait_CtxDone rt ctx k now sleep t :
  select_wait rt ctx k now sleep = (CtxDone, t) ->
  exists tc, done_at ctx = Some tc /\ tc <= t.
Proof.
  unfold select_wait. destruct (done_at ctx) as [tc|]; [|discriminate].
  intros H. exists tc. split; [reflexivity|].
  destruct (Z.ltb_spec (Z.max now tc) (now + Z.max 0 sleep)).
  - injection H as <-. lia.
  - destruct (Z.ltb_spec (now + Z.max 0 sleep) (Z.max now tc)); [discriminate|].
    destruct (select_pick rt k); [discriminate|]. injection H as <-. lia.
Qed.

Lemma loop_timeout_inv rt ctx e fn retry fuel : forall i k now,
  out (loop rt ctx e fn retry fuel i k now) = Returned (errors_New ErrTimeout) ->
  exists tc, done_at ctx = Some tc
             /\ tc <= finish (loop rt ctx e fn retry fuel i k now).
Proof.
  induction fuel as [|fuel IH]; intros i k now; [discriminate|].
  rewrite loop_S. destruct (Z.leb_spec i retry) as [Hg|Hg]; [|discriminate].
  unfold body. destruct (err (fn k e)) as [m|]; [|discriminate].
  destruct (Int63n (rand_src rt k) i) as [j|]; [|discriminate].
  destruct (select_wait _ _ _ _ _) as [[|] t] eqn:Hs.
  - rewrite out_log, finish_log. apply IH.
  - intros _. apply select_wait_CtxDone in Hs. exact Hs.
Qed.

Lemma email_validate_not_timeout (e : email) :
  email_validate e <> errors_New ErrTimeout.
Proof.
  unfold email_validate.
  repeat match goal with
         | |- context [if ?b then _ else _] => destruct b
         end; discriminate.
Qed.

(** A run that ends exhausted, with at most 32 retries: every pass
    failed and waited its backoff out, the last one too. *)
Lemma loop_exhausted_duration rt ctx e fn retry fuel : forall i k now,
  1 <= i <= retry + 1 -> retry <= 32 ->
  out (loop rt ctx e fn retry fuel i k now) = Returned (errors_New ErrExhausted) ->
  now + 2 * Second * (2 ^ (retry + 1) - 2 ^ i)
    <= finish (loop rt ctx e fn retry fuel i k now)
  /\ waits (loop rt ctx e fn retry fuel i k now) = Z.to_nat (retry + 1 - i).
Proof.
  induction fuel as [|fuel IH]; intros i k now Hi Hr; [discriminate|].
  destruct (Z.le_gt_cases i retry) as [Hg|Hg].
  - destruct (err (fn k e)) as [m|] eqn:Herr.
    + rewrite (loop_pass_failure rt ctx e fn retry fuel i k now m
                 ltac:(lia) Hg Herr).
      cbn zeta.
      destruct (select_wait _ _ _ _ _) as [[|] t] eqn:Hs; [|discriminate].
      apply select_wait_timer_instant in Hs.
      rewrite out_log, finish_log, waits_log.
      rewrite filter_app, length_app. cbn [filter is_retry List.length].
      intros Ho.
      destruct (IH (i + 1) (S k) t ltac:(lia) Hr Ho) as (Hfin & Hw).
      pose proof (Z.mod_pos_bound (rand_src rt k) i ltac:(lia)) as Hj.
      assert (Hp : 0 < 2 ^ i) by (apply Z.pow_pos_nonneg; lia).
      replace (2 ^ (i + 1)) with (2 * 2 ^ i) in Hfin
        by (rewrite Z.pow_add_r by lia; change (2 ^ 1) with 2; lia).
      rewrite Hw. split; [|lia].
      unfold Second in *. lia.
    + rewrite (loop_pass_success rt ctx e fn retry fuel i k now Hg Herr).
      discriminate.
  - rewrite loop_S. destruct (Z.leb_spec i retry); [lia|].
    intros _. replace i with (retry + 1) by lia.
    cbn [finish stop waits trace filter List.length].
    split; [lia|]. replace (retry + 1 - (retry + 1)) with 0 by lia. reflexivity.
Qed.

(** ** What [Send] returns, and after how many attempts *)

(** [Send] never hands back the error of the transport.  On an email that
    fails validation it returns the validation error, with no event; on a
    valid one, with maxRetries below the largest int, it returns nil,
    the timeout error or the exhaustion error, and nothing else: it does
    not panic, and what the adapter's error said is lost. *)
Theorem Send_outcomes
  (rt : Runtime) (tr : Transport) (e : email) (ctx : Context)
  (n start : Z) :
  n < Int64.max ->
  let r := email_Send rt tr e ctx n start in
  (forall m, email_validate e = Some m ->
             out r = Returned (Some m) /\ trace r = [] /\ finish r = start)
  /\ (email_validate e = nil_error ->
      out r = Returned nil_error
      \/ out r = Returned (errors_New ErrTimeout)
      \/ out r = Returned (errors_New ErrExhausted)).
Proof.
  intros Hn r. subst r. split.
  - intros m Hm. rewrite email_Send_unfold, Hm. repeat split.
  - intros Hv. rewrite (email_Send_valid rt tr e ctx n start Hv).
    unfold exponentialBackOffRetry. apply loop_outcomes; lia.
Qed.

Lemma Send_outcomes_witness :
  out (email_Send Sample.runtime Sample.dead_transport Sample.mail
         Sample.in_50s 10 0) = Returned nil_error
  \/ out (email_Send Sample.runtime Sample.dead_transport Sample.mail
            Sample.in_50s 10 0) = Returned (errors_New ErrTimeout)
  \/ out (email_Send Sample.runtime Sample.dead_transport Sample.mail
            Sample.in_50s 10 0) = Returned (errors_New ErrExhausted).
Proof.
  destruct (Send_outcomes Sample.runtime Sample.dead_transport Sample.mail
              Sample.in_50s 10 0) as (_ & H).
  - unfold Int64.max. lia.
  - apply H. reflexivity.
Defined.

(** maxRetries bounds the attempts: with maxRetries [n] below the largest
    int, [Send] invokes the adapter at most [n] times (never, for
    [n <= 0]) and completes at most [n] backoff waits, whatever the
    email, the transport and the context. *)
Theorem Send_attempts_bounded
  (rt : Runtime) (tr : Transport) (e : email) (ctx : Context)
  (n start : Z) :
  n < Int64.max ->
  let r := email_Send rt tr e ctx n start in
  (calls r <= Z.to_nat n)%nat /\ (waits r <= Z.to_nat n)%nat.
Proof.
  intros Hn r. subst r. rewrite email_Send_unfold.
  destruct (email_validate e) as [m|]; [cbn; lia|].
  unfold exponentialBackOffRetry.
  pose proof (loop_calls_le rt e (sendEmail tr) n ctx (S (Z.to_nat n)) 1 0%nat
                start ltac:(lia) Hn) as Hc.
  replace (n + 1 - 1) with n in Hc by lia.
  pose proof (loop_calls_by_outcome rt e (sendEmail tr) n ctx
                (S (Z.to_nat n)) 1 0%nat start) as [Ht Hx].
  cbn zeta in Ht, Hx.
  pose proof (loop_calls_waits rt e (sendEmail tr) n ctx (S (Z.to_nat n)) 1
                0%nat start) as Hw.
  split; [exact Hc|].
  destruct (loop_outcomes rt ctx e (sendEmail tr) n (S (Z.to_nat n)) 1 0%nat
              start ltac:(lia) Hn ltac:(lia)) as [Ho|[Ho|Ho]].
  - destruct (loop_nil_inv rt ctx e (sendEmail tr) n _ _ _ _ Ho)
      as (d & Hcd & Hwd & _). lia.
  - specialize (Ht Ho). lia.
  - specialize (Hx Ho). lia.
Qed.

Lemma Send_attempts_bounded_witness :
  (calls (email_Send Sample.runtime Sample.dead_transport Sample.mail
            Background 3 0) <= 3)%nat.
Proof.
  apply (Send_attempts_bounded Sample.runtime Sample.dead_transport
           Sample.mail Background 3 0).
  unfold Int64.max. lia.
Defined.

(** [Send] on a valid email returns nil only right after the first
    invocation of the adapter that succeeds: every invocation before it
    failed and was followed by one completed wait.  And when [Send] does
    not return nil, every invocation it made failed. *)
Theorem Send_nil_after_first_success
  (rt : Runtime) (tr : Transport) (e : email) (ctx : Context)
  (n start : Z) :
  email_validate e = nil_error ->
  let r := email_Send rt tr e ctx n start in
  (out r = Returned nil_error ->
   exists k, first_success_at (sendEmail tr) e k
             /\ calls r = S k /\ waits r = k)
  /\ (out r <> Returned nil_error ->
      forall j, (j < calls r)%nat -> err (sendEmail tr j e) <> None).
Proof.
  intros Hv r. subst r. rewrite (email_Send_valid rt tr e ctx n start Hv).
  unfold exponentialBackOffRetry. split.
  - intros Ho.
    destruct (loop_nil_inv rt ctx e (sendEmail tr) n _ _ _ _ Ho)
      as (d & Hc & Hw & Hbefore & Hlast).
    exists d. split; [split|split]; assumption.
  - intros Ho j Hj.
    apply (loop_not_nil rt ctx e (sendEmail tr) n _ _ _ _ Ho j Hj).
Qed.

Lemma Send_nil_after_first_success_witness :
  exists k, first_success_at (sendEmail (Sample.transport 1)) Sample.mail k
            /\ calls (email_Send Sample.runtime (Sample.transport 1)
                        Sample.mail Background 5 0) = S k
            /\ waits (email_Send Sample.runtime (Sample.transport 1)
                        Sample.mail Background 5 0) = k.
Proof.
  destruct (Send_nil_after_first_success Sample.runtime (Sample.transport 1)
              Sample.mail Background 5 0) as (H & _).
  - reflexivity.
  - apply H. vm_compute. reflexivity.
Defined.

(** A first success within the retries is reached when nothing cancels
    the run: for every valid email, if the adapter fails on its first [k]
    invocations and succeeds on the next, with [k] below maxRetries, and
    the context is not cancelled by the instant that invocation returns,
    then [Send] returns nil after exactly [k + 1] invocations and [k]
    completed waits. *)
Theorem Send_first_success
  (rt : Runtime) (tr : Transport) (e : email) (ctx : Context)
  (n start : Z) (k : nat) :
  email_validate e = nil_error ->
  first_success_at (sendEmail tr) e k ->
  Z.of_nat k < n <= Int64.max ->
  cancelled_by ctx (finish (email_Send rt tr e Background n start)) = false ->
  let r := email_Send rt tr e ctx n start in
  out r = Returned nil_error /\ calls r = S k /\ waits r = k.
Proof.
  intros Hv [Hbefore Hlast] Hk Hc r. subst r.
  rewrite (email_Send_valid rt tr e ctx n start Hv).
  rewrite (email_Send_valid rt tr e Background n start Hv) in Hc.
  unfold exponentialBackOffRetry in *.
  rewrite (loop_late_cancel rt e (sendEmail tr) n ctx _ 1 0%nat start Hc).
  apply loop_first_success; try assumption; lia.
Qed.

Lemma Send_first_success_witness :
  out (email_Send Sample.runtime (Sample.transport 4) Sample.mail
         {| done_at := Some (61 * Second) |} 5 0) = Returned nil_error
  /\ calls (email_Send Sample.runtime (Sample.transport 4) Sample.mail
              {| done_at := Some (61 * Second) |} 5 0) = 5%nat
  /\ waits (email_Send Sample.runtime (Sample.transport 4) Sample.mail
              {| done_at := Some (61 * Second) |} 5 0) = 4%nat.
Proof.
  apply (Send_first_success Sample.runtime (Sample.transport 4) Sample.mail
           {| done_at := Some (61 * Second) |} 5 0 4%nat).
  - reflexivity.
  - split.
    + intros j Hj. unfold sendEmail, Sample.transport. cbn [DialAndSend].
      destruct (Nat.ltb_spec j 4); [discriminate|lia].
    + reflexivity.
  - unfold Int64.max. lia.
  - vm_compute. reflexivity.
Defined.

(** A cancellation that comes after the run is over changes nothing: if
    the context is not cancelled by the instant at which [Send] under a
    context that is never cancelled returns, [Send] does exactly what it
    does under that context, event for event. *)
Theorem Send_late_cancellation
  (rt : Runtime) (tr : Transport) (e : email) (ctx : Context)
  (n start : Z) :
  cancelled_by ctx (finish (email_Send rt tr e Background n start)) = false ->
  email_Send rt tr e ctx n start = email_Send rt tr e Background n start.
Proof.
  rewrite !email_Send_unfold. destruct (email_validate e); [reflexivity|].
  unfold exponentialBackOffRetry. apply loop_late_cancel.
Qed.

Lemma Send_late_cancellation_witness :
  email_Send Sample.runtime Sample.dead_transport Sample.mail Sample.in_50s
    2 0
  = email_Send Sample.runtime Sample.dead_transport Sample.mail Background
      2 0.
Proof.
  apply (Send_late_cancellation Sample.runtime Sample.dead_transport
           Sample.mail Sample.in_50s 2 0).
  vm_compute. reflexivity.
Defined.

(** With maxRetries zero or negative [Send] never reaches the adapter: on
    a valid email it returns the exhaustion error at the instant of the
    call, also when the transport would have accepted the message. *)
Theorem Send_without_retries
  (rt : Runtime) (tr : Transport) (e : email) (ctx : Context)
  (n start : Z) :
  email_validate e = nil_error ->
  n <= 0 ->
  email_Send rt tr e ctx n start
  = stop (Returned (errors_New ErrExhausted)) start.
Proof.
  intros Hv Hn. rewrite (email_Send_valid rt tr e ctx n start Hv).
  apply no_retry_no_attempt. exact Hn.
Qed.

Lemma Send_without_retries_witness :
  email_Send Sample.runtime (Sample.transport 0) Sample.mail Background 0 0
  = stop (Returned (errors_New ErrExhausted)) 0.
Proof.
  apply (Send_without_retries Sample.runtime (Sample.transport 0)
           Sample.mail Background 0 0).
  - reflexivity.
  - lia.
Defined.

(** With maxRetries at least 1, [Send] on a valid email always reaches
    the adapter: the first event of the run is the first invocation,
    whatever the context, even one cancelled before the call, and
    whatever the recipients, even none. *)
Theorem Send_reaches_transport
  (rt : Runtime) (tr : Transport) (e : email) (ctx : Context)
  (n start : Z) :
  email_validate e = nil_error ->
  1 <= n ->
  let r := email_Send rt tr e ctx n start in
  hd_error (trace r) = Some (Called 0 (err (sendEmail tr 0%nat e)))
  /\ (1 <= calls r)%nat.
Proof.
  intros Hv Hn r. subst r. rewrite (email_Send_valid rt tr e ctx n start Hv).
  unfold exponentialBackOffRetry. rewrite loop_S.
  destruct (Z.leb_spec 1 n); [|lia]. unfold body.
  destruct (err (sendEmail tr 0%nat e)) as [m|]; [|split; [reflexivity|cbn; lia]].
  destruct (Int63n (rand_src rt 0) 1) as [j|]; [|split; [reflexivity|cbn; lia]].
  destruct (select_wait _ _ _ _ _) as [[|] t].
  - rewrite calls_log. split; [reflexivity|]. cbn [filter is_call app List.length].
    lia.
  - split; [reflexivity|]. cbn. lia.
Qed.

Lemma Send_reaches_transport_witness :
  (1 <= calls (email_Send Sample.runtime Sample.dead_transport
                 (SetTo Sample.mail []) Sample.cancelled 1 0))%nat.
Proof.
  apply (Send_reaches_transport Sample.runtime Sample.dead_transport
           (SetTo Sample.mail []) Sample.cancelled 1 0).
  - reflexivity.
  - lia.
Defined.

(** ** How long [Send] takes *)

(** A [Send] that ends exhausted waited after every attempt, the last one
    included: with maxRetries [n] from 1 to 32 it made [n] attempts and
    [n] waits, and returned no earlier than [2s * (2^(n+1) - 2)] after
    the call (4 s for one retry, 12 s for two). *)
Theorem Send_exhausted_duration
  (rt : Runtime) (tr : Transport) (e : email) (ctx : Context)
  (n start : Z) :
  email_validate e = nil_error ->
  1 <= n <= 32 ->
  out (email_Send rt tr e ctx n start) = Returned (errors_New ErrExhausted) ->
  let r := email_Send rt tr e ctx n start in
  start + 2 * Second * (2 ^ (n + 1) - 2) <= finish r
  /\ calls r = Z.to_nat n
  /\ waits r = Z.to_nat n.
Proof.
  intros Hv Hn Ho r. subst r.
  rewrite (email_Send_valid rt tr e ctx n start Hv) in *.
  unfold exponentialBackOffRetry in *.
  destruct (loop_exhausted_duration rt ctx e (sendEmail tr) n
              (S (Z.to_nat n)) 1 0%nat start ltac:(lia) ltac:(lia) Ho)
    as (Hfin & Hw).
  replace (n + 1 - 1) with n in Hw by lia. change (2 ^ 1) with 2 in Hfin.
  split; [exact Hfin|]. split; [|exact Hw].
  pose proof (loop_calls_by_outcome rt e (sendEmail tr) n ctx
                (S (Z.to_nat n)) 1 0%nat start) as [_ Hx].
  cbn zeta in Hx. rewrite (Hx Ho). exact Hw.
Qed.

Lemma Send_exhausted_duration_witness :
  0 + 2 * Second * (2 ^ (1 + 1) - 2)
  <= finish (email_Send Sample.runtime Sample.dead_transport Sample.mail
               Background 1 0).
Proof.
  apply (Send_exhausted_duration Sample.runtime Sample.dead_transport
           Sample.mail Background 1 0).
  - reflexivity.
  - lia.
  - vm_compute. reflexivity.
Defined.

(** [Send] returns the timeout error only under a context that was
    cancelled, and not before the cancellation: a context that is never
    cancelled never gives it. *)
Theorem Send_timeout_after_cancellation
  (rt : Runtime) (tr : Transport) (e : email) (ctx : Context)
  (n start : Z) :
  out (email_Send rt tr e ctx n start) = Returned (errors_New ErrTimeout) ->
  exists tc, done_at ctx = Some tc
             /\ tc <= finish (email_Send rt tr e ctx n start).
Proof.
  rewrite email_Send_unfold.
  destruct (email_validate e) as [m|] eqn:Hv.
  - cbn [out stop]. intros [= ->]. now destruct (email_validate_not_timeout e).
  - unfold exponentialBackOffRetry. apply loop_timeout_inv.
Qed.

Lemma Send_timeout_after_cancellation_witness :
  exists tc, done_at Sample.cancelled = Some tc
             /\ tc <= finish (email_Send Sample.runtime Sample.dead_transport
                                Sample.mail Sample.cancelled 3 0).
Proof.
  apply (Send_timeout_after_cancellation Sample.runtime Sample.dead_transport
           Sample.mail Sample.cancelled 3 0).
  vm_compute. reflexivity.
Defined.

(** ** The earlier revision of the loop: every run *)

(** The earlier revision never waits and never looks at the context: a
    run makes at most one invocation, completes no wait, does not return
    the timeout error, and is the same under every context and every
    random source; it returns nil exactly when a retry is allowed and
    the first invocation succeeds. *)
Theorem Helper0_never_waits
  (rt rt' : Runtime) (ctx ctx' : Context) (e : email) (fn : AttemptFn)
  (retry start : Z) :
  let r := Helper0.exponentialBackOffRetry rt ctx e fn retry start in
  r = Helper0.exponentialBackOffRetry rt' ctx' e fn retry start
  /\ (calls r <= 1)%nat
  /\ waits r = 0%nat
  /\ out r <> Returned (errors_New ErrTimeout)
  /\ (out r = Returned nil_error <-> 1 <= retry /\ err (fn 0%nat e) = None).
Proof.
  intros r. subst r. destruct (Z.le_gt_cases 1 retry) as [Hr|Hr].
  - rewrite !Helper0_first_pass by assumption.
    destruct (err (fn 0%nat e)) as [m|]; cbn.
    + repeat split; try lia; try discriminate. intros [_ H]. discriminate.
    + repeat split; try lia; try discriminate.
  - unfold Helper0.exponentialBackOffRetry. rewrite !Helper0_loop_S.
    destruct (Z.ltb_spec 0 retry); [lia|]. cbn.
    repeat split; try lia; try discriminate.
Qed.

(** ** Waits and the deadline *)

(** Every wait that ran to its end ended before the cancellation, and the
    waits grow: [w] completed waits from loop index [i] on need
    [2s * (2^(i+w) - 2^i)] before the context is cancelled. *)
Lemma loop_waits_fit rt ctx e fn retry tc fuel : forall i k now,
  done_at ctx = Some tc ->
  1 <= i -> retry <= 32 ->
  (1 <= waits (loop rt ctx e fn retry fuel i k now))%nat ->
  now + 2 * Second
        * (2 ^ (i + Z.of_nat (waits (loop rt ctx e fn retry fuel i k now)))
           - 2 ^ i)
  <= tc.
Proof.
  induction fuel as [|fuel IH]; intros i k now Hd Hi Hr; [cbn; lia|].
  destruct (Z.le_gt_cases i retry) as [Hg|Hg].
  - destruct (err (fn k e)) as [m|] eqn:Herr.
    + rewrite (loop_pass_failure rt ctx e fn retry fuel i k now m
                 ltac:(lia) Hg Herr).
      cbn zeta.
      destruct (select_wait _ _ _ _ _) as [[|] t] eqn:Hs; [|cbn; lia].
      destruct (select_wait_TimerFired rt ctx k _ _ t tc Hs Hd) as [Ht Hle].
      rewrite waits_log, filter_app, length_app.
      cbn [filter is_retry List.length Nat.add].
      pose proof (Z.mod_pos_bound (rand_src rt k) i ltac:(lia)) as Hj.
      assert (Hp : 0 < 2 ^ i) by (apply Z.pow_pos_nonneg; lia).
      assert (H2 : 2 ^ (i + 1) = 2 * 2 ^ i)
        by (rewrite Z.pow_add_r by lia; change (2 ^ 1) with 2; lia).
      intros _.
      destruct (waits (loop rt ctx e fn retry fuel (i + 1) (S k) t))
        as [|w] eqn:Hw.
      * replace (i + Z.of_nat 1) with (i + 1) by lia. rewrite H2.
        unfold Second in *. lia.
      * specialize (IH (i + 1) (S k) t Hd ltac:(lia) Hr).
        rewrite Hw in IH. specialize (IH ltac:(lia)).
        replace (i + Z.of_nat (S (S w))) with (i + 1 + Z.of_nat (S w)) by lia.
        rewrite H2 in IH. unfold Second in *. lia.
    + rewrite (loop_pass_success rt ctx e fn retry fuel i k now Hg Herr).
      cbn. lia.
  - rewrite loop_S. destruct (Z.leb_spec i retry); [lia|]. cbn. lia.
Qed.

(** The deadline bounds the waits: under a context cancelled at [tc],
    with maxRetries at most 32, a [Send] that completed [w >= 1] backoff
    waits was called at least [2s * (2^(w+1) - 2)] before [tc]: one wait
    needs 4 s, two need 12 s, three 28 s, four 60 s. *)
Theorem Send_waits_fit_before_cancellation
  (rt : Runtime) (tr : Transport) (e : email) (ctx : Context)
  (n start tc : Z) :
  n <= 32 ->
  done_at ctx = Some tc ->
  (1 <= waits (email_Send rt tr e ctx n start))%nat ->
  start + 2 * Second
          * (2 ^ (Z.of_nat (waits (email_Send rt tr e ctx n start)) + 1) - 2)
  <= tc.
Proof.
  intros Hn Hd. rewrite email_Send_unfold.
  destruct (email_validate e); [cbn; lia|].
  unfold exponentialBackOffRetry. intros Hw.
  pose proof (loop_waits_fit rt ctx e (sendEmail tr) n tc _ 1 0%nat start
                Hd ltac:(lia) Hn Hw) as H.
  change (2 ^ 1) with 2 in H.
  rewrite (Z.add_comm (Z.of_nat _) 1). exact H.
Qed.

Lemma Send_waits_fit_before_cancellation_witness :
  0 + 2 * Second
      * (2 ^ (Z.of_nat (waits (email_Send Sample.runtime Sample.dead_transport
                                 Sample.mail Sample.in_50s 10 0)) + 1) - 2)
  <= 50 * Second.
Proof.
  apply (Send_waits_fit_before_cancellation Sample.runtime
           Sample.dead_transport Sample.mail Sample.in_50s 10 0).
  - lia.
  - reflexivity.
  - vm_compute. lia.
Defined.

(** ** The example programs *)

(** The entity the README program sends. *)
Lemma example_html_main_unfold rt tr renderer start :
  exists m,
    email_validate m = nil_error
    /\ parts (getMessage (FormatAddress tr) m)
       = [("text/html", "<div><h2>Test</h2></div>")]
    /\ example_html_main rt tr renderer start
       = let r := email_Send rt tr m
                    {| done_at := Some (start + 50 * Second) |} 10 start in
         match out r with
         | Returned (Some msg) => {| logged := [msg]; sent := Some r |}
         | _ => {| logged := []; sent := Some r |}
         end.
Proof.
  eexists. split; [|split]; [| |reflexivity]; reflexivity.
Qed.

(** The README program against a server that refuses every attempt: the
    program gives up on its 50 s timeout, not on its ten retries.  It
    logs the timeout error, no earlier than 50 s after the call, after at
    most 4 attempts and 3 completed waits. *)
Theorem example_html_main_times_out
  (rt : Runtime) (tr : Transport)
  (renderer : string -> unit -> string * error) (start : Z) :
  (forall k d m, err (DialAndSend tr k d m) <> None) ->
  logged (example_html_main rt tr renderer start) = [ErrTimeout]
  /\ exists r,
       sent (example_html_main rt tr renderer start) = Some r
       /\ (1 <= calls r <= 4)%nat /\ (waits r <= 3)%nat
       /\ start + 50 * Second <= finish r.
Proof.
  intros Hdead.
  destruct (example_html_main_unfold rt tr renderer start) as (m & Hv & _ & ->).
  cbn zeta. rewrite (email_Send_valid rt tr m _ 10 start Hv).
  unfold exponentialBackOffRetry.
  set (ctx := {| done_at := Some (start + 50 * Second) |}).
  assert (Hfail : always_fails (sendEmail tr) m)
    by (intros k; apply Hdead).
  destruct (loop_always_fails rt m (sendEmail tr) 10 (S (Z.to_nat 10)) 1
              0%nat start Hfail ltac:(lia) ltac:(unfold Int64.max; lia)
              ltac:(lia)) as (Hbo & _ & _).
  cbn zeta in Hbo.
  destruct (loop_exhausted_duration rt Background m (sendEmail tr) 10
              (S (Z.to_nat 10)) 1 0%nat start ltac:(lia) ltac:(lia) Hbo)
    as (Hbfin & _).
  change (2 ^ (10 + 1)) with 2048 in Hbfin. change (2 ^ 1) with 2 in Hbfin.
  assert (Ho : out (loop rt ctx m (sendEmail tr) 10 (S (Z.to_nat 10)) 1 0%nat
                      start) = Returned (errors_New ErrTimeout)).
  { apply (loop_cancelled rt ctx m (sendEmail tr) 10 (start + 50 * Second));
      try assumption; try reflexivity; try lia.
    unfold Second in *. lia. }
  rewrite Ho. cbn [logged sent errors_New]. split; [reflexivity|].
  eexists. split; [reflexivity|].
  pose proof (loop_calls_by_outcome rt m (sendEmail tr) 10 ctx
                (S (Z.to_nat 10)) 1 0%nat start) as [Hc _].
  cbn zeta in Hc. specialize (Hc Ho).
  destruct (loop_timeout_inv rt ctx m (sendEmail tr) 10 _ _ _ _ Ho)
    as (tc & Htc & Hfin).
  injection Htc as <-.
  assert (Hw : (waits (loop rt ctx m (sendEmail tr) 10 (S (Z.to_nat 10)) 1
                         0%nat start) <= 3)%nat).
  { destruct (Nat.le_gt_cases
                (waits (loop rt ctx m (sendEmail tr) 10 (S (Z.to_nat 10)) 1
                          0%nat start)) 3) as [H|H]; [exact H|exfalso].
    pose proof (loop_waits_fit rt ctx m (sendEmail tr) 10
                  (start + 50 * Second) (S (Z.to_nat 10)) 1 0%nat start
                  eq_refl ltac:(lia) ltac:(lia) ltac:(lia)) as Hfit.
    assert (H32 : 2 ^ 5 <= 2 ^ (1 + Z.of_nat
                    (waits (loop rt ctx m (sendEmail tr) 10 (S (Z.to_nat 10))
                              1 0%nat start))))
      by (apply Z.pow_le_mono_r; lia).
    change (2 ^ 5) with 32 in H32. change (2 ^ 1) with 2 in Hfit.
    unfold Second in *. lia. }
  split; [lia|]. split; [exact Hw|exact Hfin].
Qed.

Lemma example_html_main_times_out_witness :
  logged (example_html_main Sample.runtime Sample.dead_transport
            (fun _ _ => ("", nil_error)) 0) = [ErrTimeout].
Proof.
  apply (example_html_main_times_out Sample.runtime Sample.dead_transport
           (fun _ _ => ("", nil_error)) 0).
  intros k d m. discriminate.
Defined.



(** ** Setters, then the builder *)

(** What the setters store is what the message carries: after the nine
    setters, the header holds, for each recipient list given that is not
    empty, its encoded formatted addresses, and the encoded subject,
    formatted sender, tags and return address given; the embedded files
    are the images given; and the body is as it was. *)
Theorem setters_reach_the_message
  (fmt : string -> string -> string) (e : email)
  (vto vcc vbcc imgs : list string) (subj sndr name ret tg : string) :
  let e' :=
    SetImagesToEmbed
      (SetTags
         (SetReturnEmail
            (SetSenderName
               (SetSender (SetSubject (SetBCC (SetCC (SetTo e vto) vcc) vbcc)
                             subj) sndr) name) ret) tg) imgs in
  let gm := getMessage fmt e' in
  GetHeader gm "To" = recipient_values fmt vto
  /\ GetHeader gm "Cc" = recipient_values fmt vcc
  /\ GetHeader gm "Bcc" = recipient_values fmt vbcc
  /\ GetHeader gm "Subject" = Some [Encoded subj]
  /\ GetHeader gm "From" = Some [Encoded (fmt sndr name)]
  /\ GetHeader gm "X-SES-MESSAGE-TAGS" = Some [Encoded tg]
  /\ GetHeader gm "Return-Path" = Some [Encoded ret]
  /\ embedded gm = imgs
  /\ parts gm = parts (getMessage fmt e)
  /\ dialer e' = dialer e /\ content e' = content e.
Proof.
  intros e' gm. subst gm e'.
  rewrite !getMessage_GetHeader, getMessage_embeds, !getMessage_parts.
  repeat split.
Qed.

(** * The two revisions of the loop under the same claims

    [src/helper.go] holds the loop that counts from 0, the documented
    copy the loop that counts from 1.  The properties below are stated
    on both. *)

(** ** The earlier revision: every run *)

(** With no retry allowed the loop is not entered. *)
Lemma Helper0_no_retry rt ctx e fn retry start :
  retry <= 0 ->
  Helper0.exponentialBackOffRetry rt ctx e fn retry start
  = stop (Returned (errors_New ErrExhausted)) start.
Proof.
  intros H. unfold Helper0.exponentialBackOffRetry. rewrite Helper0_loop_S.
  destruct (Z.ltb_spec 0 retry); [lia|reflexivity].
Qed.

Lemma Helper0_calls_le rt ctx e fn retry start :
  0 <= retry ->
  (calls (Helper0.exponentialBackOffRetry rt ctx e fn retry start)
   <= Z.to_nat retry)%nat.
Proof.
  intros Hr. destruct (Z.le_gt_cases 1 retry) as [H|H].
  - pose proof (Helper0_calls_le_1 rt ctx e fn retry start). lia.
  - rewrite Helper0_no_retry by lia. cbn. lia.
Qed.

Lemma Helper0_calls_waits rt ctx e fn retry start :
  (calls (Helper0.exponentialBackOffRetry rt ctx e fn retry start)
   <= waits (Helper0.exponentialBackOffRetry rt ctx e fn retry start) + 1)%nat.
Proof.
  pose proof (Helper0_calls_le_1 rt ctx e fn retry start). lia.
Qed.

(** A run that enters the loop ends when its first attempt returns. *)
Lemma Helper0_first_finish rt ctx e fn retry start :
  1 <= retry ->
  finish (Helper0.exponentialBackOffRetry rt ctx e fn retry start)
  = start + Z.of_N (took (fn 0%nat e)).
Proof.
  intros H. rewrite Helper0_first_pass by assumption.
  destruct (err (fn 0%nat e)); reflexivity.
Qed.


(** The backoffs of a run: none, or the one of index 0. *)
Lemma Helper0_backoffs rt ctx e fn retry start :
  let r := Helper0.exponentialBackOffRetry rt ctx e fn retry start in
  (backoffs r = [] \/ backoffs r = [2 * Second])
  /\ List.length (backoffs r) = failures r.
Proof.
  cbn zeta. destruct (Z.le_gt_cases 1 retry) as [H|H].
  - rewrite Helper0_first_pass by assumption.
    destruct (err (fn 0%nat e)); split; try reflexivity; [now right|now left].
  - rewrite Helper0_no_retry by lia. split; [now left|reflexivity].
Qed.

(** ** The retry count *)

(** C2 as stated fails: with maxRetries 2, an attempt function that always
    fails and a context cancelled before the call, the engine invokes the
    attempt function once and returns Timeout. *)
Lemma retry_count_fails_when_cancelled :
  let r := exponentialBackOffRetry Sample.runtime Sample.cancelled
             Sample.mail Sample.refused 2 0 in
  out r = Returned (errors_New ErrTimeout)
  /\ calls r = 1%nat
  /\ ~ exhausted_after r 2.
Proof.
  cbn zeta. split; [vm_compute; reflexivity|].
  split; [vm_compute; reflexivity|].
  intros [H _]. vm_compute in H. discriminate.
Qed.

(** C2, as amended.  For every maxRetries [N] with [0 <= N] below the
    largest int and every attempt function that always fails: the loop
    that counts from 1, under a context that is not cancelled by the
    instant its retries are exhausted, invokes the attempt function
    exactly [N] times and then returns RetriesExhausted, and under any
    context returns RetriesExhausted only after exactly [N] invocations;
    in both revisions of the loop the attempt function is invoked at most
    [N] times; and for [N = 0] both revisions make no attempt and return
    RetriesExhausted at the instant of the call, whatever the context. *)
Theorem retry_count_both_loops
  (rt : Runtime) (ctx : Context) (e : email) (fn : AttemptFn) (N start : Z) :
  0 <= N < Int64.max ->
  always_fails fn e ->
  let r1 := exponentialBackOffRetry rt ctx e fn N start in
  let r0 := Helper0.exponentialBackOffRetry rt ctx e fn N start in
  (cancelled_by ctx
     (finish (exponentialBackOffRetry rt Background e fn N start)) = false ->
   exhausted_after r1 N)
  /\ (out r1 = Returned (errors_New ErrExhausted) -> calls r1 = Z.to_nat N)
  /\ (calls r1 <= Z.to_nat N)%nat
  /\ (calls r0 <= Z.to_nat N)%nat
  /\ (N = 0 ->
      r1 = stop (Returned (errors_New ErrExhausted)) start
      /\ r0 = stop (Returned (errors_New ErrExhausted)) start).
Proof.
  intros HN Hfail r1 r0.
  destruct (retry_count_exhausted rt ctx e fn N start HN Hfail)
    as (_ & Hc & Hlive & _).
  split; [exact Hlive|]. split; [exact Hc|].
  split.
  { subst r1. unfold exponentialBackOffRetry.
    pose proof (loop_calls_le rt e fn N ctx (S (Z.to_nat N)) 1 0%nat start
                  ltac:(lia) ltac:(lia)) as H.
    replace (N + 1 - 1) with N in H by lia. exact H. }
  split; [apply Helper0_calls_le; lia|].
  intros HN0. subst r1 r0. split.
  - apply no_retry_no_attempt. lia.
  - apply Helper0_no_retry. lia.
Qed.

Lemma retry_count_both_loops_witness :
  exhausted_after
    (exponentialBackOffRetry Sample.runtime Sample.in_50s Sample.mail
       Sample.refused 2 0) 2
  /\ (calls (Helper0.exponentialBackOffRetry Sample.runtime Sample.in_50s
               Sample.mail Sample.refused 2 0) <= Z.to_nat 2)%nat.
Proof.
  destruct (retry_count_both_loops Sample.runtime Sample.in_50s Sample.mail
              Sample.refused 2 0) as (H1 & _ & _ & H0 & _).
  - unfold Int64.max. lia.
  - intros k. discriminate.
  - split; [|exact H0]. apply H1. vm_compute. reflexivity.
Defined.

(** ** The backoffs *)

(** C3, as amended.  In every run of either revision of the loop, each
    failed invocation computes one backoff.  In the loop that counts from
    1 the [n]-th backoff computed, for [n] from 1 to 32 (while the
    product fits the 64-bit [Duration]), is two seconds times [2^n], so
    the first is 4 seconds, and over these the backoff strictly
    increases.  In the loop of [src/helper.go], which counts from 0, the
    first backoff computed is the one of index 0, two seconds.  In both,
    the first backoff is computed as soon as a retry is allowed and the
    first attempt fails. *)
Theorem backoff_law_both_loops
  (rt : Runtime) (ctx : Context) (e : email) (fn : AttemptFn)
  (retry start : Z) :
  let r1 := exponentialBackOffRetry rt ctx e fn retry start in
  let r0 := Helper0.exponentialBackOffRetry rt ctx e fn retry start in
  (backoff_law (firstn 32 (backoffs r1))
   /\ List.length (backoffs r1) = failures r1
   /\ (forall d, hd_error (backoffs r1) = Some d -> d = 4 * Second))
  /\ (List.length (backoffs r0) = failures r0
      /\ (forall d, hd_error (backoffs r0) = Some d -> d = 2 * Second))
  /\ (1 <= retry -> err (fn 0%nat e) <> None ->
      hd_error (backoffs r1) = Some (4 * Second)
      /\ hd_error (backoffs r0) = Some (2 * Second)).
Proof.
  intros r1 r0. split; [apply backoff_law_first_32|].
  destruct (Helper0_backoffs rt ctx e fn retry start) as (Hb & Hl).
  fold r0 in Hb, Hl. split; [split; [exact Hl|]|].
  - destruct Hb as [-> | ->]; cbn [hd_error]; intros d; [discriminate|].
    intros [= <-]. reflexivity.
  - intros Hr Hfail. split.
    + apply first_backoff_documented; assumption.
    + subst r0. rewrite Helper0_first_pass by assumption.
      destruct (err (fn 0%nat e)); [reflexivity|contradiction].
Qed.

(** ** Cancellation *)

(** C5 as stated fails: with maxRetries 0, a transport that always fails
    and a context cancelled before the call, [Send] makes no attempt and
    returns RetriesExhausted, not Timeout. *)
Lemma cancellation_fails_without_retries :
  let r := email_Send Sample.runtime Sample.dead_transport Sample.mail
             Sample.cancelled 0 0 in
  out r = Returned (errors_New ErrExhausted)
  /\ out r <> Returned (errors_New ErrTimeout)
  /\ calls r = 0%nat.
Proof.
  cbn zeta. split; [reflexivity|]. split; [discriminate|reflexivity].
Qed.

(** C5, as amended.  For every valid email, every maxRetries of at least
    1, every transport that always fails and every context cancelled
    before the first backoff wait elapses (4 seconds after the first
    attempt returns): [Send], over the loop that counts from 1, returns
    Timeout, not RetriesExhausted, after one invocation and no completed
    wait, at the later of the end of the attempt and the cancellation, so
    that a cancellation that falls before or inside the attempt is only
    seen in the wait that follows it.  In both revisions of the loop the
    attempt function is invoked at most once more than the number of
    backoff waits that completed, and the run does not end before the
    first attempt has returned. *)
Theorem cancellation_both_loops
  (rt : Runtime) (tr : Transport) (e : email) (ctx : Context)
  (n start tc : Z) :
  email_validate e = nil_error ->
  1 <= n ->
  always_fails (sendEmail tr) e ->
  done_at ctx = Some tc ->
  tc < start + Z.of_N (took (sendEmail tr 0%nat e)) + 4 * Second ->
  let back := start + Z.of_N (took (sendEmail tr 0%nat e)) in
  let r := email_Send rt tr e ctx n start in
  let r0 := Helper0.exponentialBackOffRetry rt ctx e (sendEmail tr) n start in
  (out r = Returned (errors_New ErrTimeout)
   /\ out r <> Returned (errors_New ErrExhausted)
   /\ calls r = 1%nat
   /\ waits r = 0%nat
   /\ finish r = Z.max back tc)
  /\ (calls r <= waits r + 1)%nat
  /\ (calls r0 <= waits r0 + 1)%nat
  /\ back <= finish r
  /\ back <= finish r0.
Proof.
  intros Hv Hn Hfail Hd Htc back r r0.
  destruct (cancelled_during_first_backoff rt tr e ctx n start tc
              Hv Hn Hfail Hd Htc) as (Ho & Hne & Hc & Hw & Hcw & Hf).
  fold r in Ho, Hne, Hc, Hw, Hcw, Hf. fold back in Hf.
  split; [repeat split; assumption|].
  split; [exact Hcw|].
  split; [apply Helper0_calls_waits|].
  split; [rewrite Hf; apply Z.le_max_l|].
  subst r0 back. rewrite Helper0_first_finish by assumption. lia.
Qed.

Lemma cancellation_both_loops_witness :
  out (email_Send Sample.runtime Sample.dead_transport Sample.mail
         Sample.cancelled 10 0) = Returned (errors_New ErrTimeout)
  /\ calls (email_Send Sample.runtime Sample.dead_transport Sample.mail
              Sample.cancelled 10 0) = 1%nat.
Proof.
  destruct (cancellation_both_loops Sample.runtime Sample.dead_transport
              Sample.mail Sample.cancelled 10 0 (-1))
    as ((Ho & _ & Hc & _) & _).
  - reflexivity.
  - lia.
  - intros k. discriminate.
  - reflexivity.
  - vm_compute. reflexivity.
  - split; [exact Ho|exact Hc].
Defined.

(** ** Success *)



